(** * Scoped URL discovery: a shallow embedding of the crawler scripts

    The development follows the Python sources:
    - [discovery_all.py]: [read_patterns], [robots_sitemaps], [parse_sitemap],
      [same_domain], [canonical_url], [in_scope], [discover_all];
    - [discovery_cdp.py] / [discovery_playwright.py]: the browser-driven
      variants of the same loop ([discover_over_cdp]);
    - [crawler.py]: [scrape_page] and [crawl] over the module-level
      [visited] set.

    Strings are Rocq [string]s (one [ascii] per character), Python sets and
    dicts are stdpp's [gset] and [gmap], Python integers are [Z].  What the
    scripts obtain from the network and from third-party parsers (httpx,
    lxml, defusedxml, Playwright, [re], [urljoin]) enters through type
    classes, one per collaborator; the pieces of the Python standard library whose exact
    behaviour the properties depend on ([str] methods, [urlsplit]) are
    written out. *)

From Stdlib Require Import ZArith QArith Ascii String List Bool Lia.
From stdpp Require Import gmap strings sorting.
Import ListNotations.

Local Open Scope Z_scope.
Set Warnings "-clear-no-such-hyp".

(** ** Python [str] methods used by the scripts *)

Module Str.

Definition code (c : ascii) : nat := nat_of_ascii c.

Definition in_range (lo hi : nat) (c : ascii) : bool :=
  (Nat.leb lo (code c)) && (Nat.leb (code c) hi).

Definition isupper (c : ascii) : bool := in_range 65 90 c.
Definition islower (c : ascii) : bool := in_range 97 122 c.
Definition isdigit (c : ascii) : bool := in_range 48 57 c.
Definition isalpha (c : ascii) : bool := isupper c || islower c.

(** [str.isspace] on the ASCII range: TAB, LF, VT, FF, CR, FS, GS, RS, US
    and the space. *)
Definition isspace (c : ascii) : bool := in_range 9 13 c || in_range 28 32 c.

Definition lower_char (c : ascii) : ascii :=
  if isupper c then ascii_of_nat (code c + 32) else c.

(** [s.lower()] *)
Fixpoint lower (s : string) : string :=
  match s with
  | EmptyString => EmptyString
  | String c s' => String (lower_char c) (lower s')
  end.

(** [s.lstrip()] *)
Fixpoint lstrip (s : string) : string :=
  match s with
  | EmptyString => EmptyString
  | String c s' => if isspace c then lstrip s' else s
  end.

(** [s.rstrip()] *)
Fixpoint rstrip (s : string) : string :=
  match s with
  | EmptyString => EmptyString
  | String c s' =>
      match rstrip s' with
      | EmptyString => if isspace c then EmptyString else String c EmptyString
      | r => String c r
      end
  end.

(** [s.strip()] *)
Definition strip (s : string) : string := rstrip (lstrip s).

(** [s.startswith(p)] *)
Fixpoint startswith (s p : string) : bool :=
  match p, s with
  | EmptyString, _ => true
  | String a p', String b s' => Ascii.eqb a b && startswith s' p'
  | String _ _, EmptyString => false
  end.

(** [s.endswith(suf)]: some tail of [s], [s] itself included, is [suf]. *)
Fixpoint endswith (s suf : string) : bool :=
  String.eqb s suf ||
  match s with
  | EmptyString => false
  | String _ s' => endswith s' suf
  end.

(** [c in s] for a one-character [c]. *)
Fixpoint contains (c : ascii) (s : string) : bool :=
  match s with
  | EmptyString => false
  | String a s' => Ascii.eqb a c || contains c s'
  end.

(** [break_at p s] cuts [s] in front of the first character satisfying
    [p]: the first component has no such character, the second is empty
    or starts with one.  It renders [s.find], slicing and
    [s.split(c, 1)]. *)
Fixpoint break_at (p : ascii -> bool) (s : string) : string * string :=
  match s with
  | EmptyString => (EmptyString, EmptyString)
  | String a s' =>
      if p a then (EmptyString, s)
      else let '(l, r) := break_at p s' in (String a l, r)
  end.

(** [s.split(c, 1)] as the pair of its first element and, when [c] occurs,
    its second. *)
Definition split1 (c : ascii) (s : string) : string * option string :=
  match break_at (Ascii.eqb c) s with
  | (l, String _ r) => (l, Some r)
  | (l, EmptyString) => (l, None)
  end.

(** [s.replace(c, "")] for a one-character [c]. *)
Fixpoint remove (p : ascii -> bool) (s : string) : string :=
  match s with
  | EmptyString => EmptyString
  | String a s' => if p a then remove p s' else String a (remove p s')
  end.

Fixpoint forallb (p : ascii -> bool) (s : string) : bool :=
  match s with
  | EmptyString => true
  | String a s' => p a && forallb p s'
  end.

(** Line boundaries of [str.splitlines] on the ASCII range: LF, VT, FF,
    CR, FS, GS, RS; CR LF counts as one boundary. *)
Definition islinebreak (c : ascii) : bool :=
  in_range 10 13 c || in_range 28 30 c.

Definition is_cr (c : ascii) : bool := Nat.eqb (code c) 13.
Definition is_lf (c : ascii) : bool := Nat.eqb (code c) 10.

(** [s.splitlines()]: [cur] is the line read so far. *)
Fixpoint splitlines_aux (cur : string) (s : string) : list string :=
  match s with
  | EmptyString =>
      match cur with EmptyString => [] | _ => [cur] end
  | String a s' =>
      if islinebreak a then
        cur :: match s' with
               | String b s'' =>
                   if is_cr a && is_lf b then splitlines_aux EmptyString s''
                   else splitlines_aux EmptyString s'
               | EmptyString => []
               end
      else splitlines_aux (cur +:+ String a EmptyString) s'
  end.

Definition splitlines (s : string) : list string :=
  splitlines_aux EmptyString s.

End Str.

(** ** [urllib.parse.urlsplit]

    The splitting algorithm of CPython's [urlsplit]: leading C0 controls and
    spaces are dropped, TAB/CR/LF are removed, a scheme is recognised when
    the text before the first colon starts with a letter and consists of
    scheme characters, a network location follows a leading [//] and runs to
    the first [/], [?] or [#], and fragment and query are split off at the
    first [#] and [?].  The checks that make [urlsplit] raise [ValueError]
    (unbalanced brackets in the network location, characters that normalise
    to delimiters) are not part of the model. *)

Record SplitResult := mkSplit {
  scheme : string;
  netloc : string;
  path : string;
  query : string;
  fragment : string
}.

Module Url.

Definition is_c0_or_space (c : ascii) : bool := Nat.leb (Str.code c) 32.

Fixpoint lstrip_c0 (s : string) : string :=
  match s with
  | EmptyString => EmptyString
  | String c s' => if is_c0_or_space c then lstrip_c0 s' else s
  end.

Definition is_unsafe (c : ascii) : bool :=
  Nat.eqb (Str.code c) 9 || Nat.eqb (Str.code c) 13 || Nat.eqb (Str.code c) 10.

(** letters, digits and [+-.] *)
Definition scheme_char (c : ascii) : bool :=
  Str.isalpha c || Str.isdigit c ||
  Nat.eqb (Str.code c) 43 || Nat.eqb (Str.code c) 45 || Nat.eqb (Str.code c) 46.

Definition is_colon (c : ascii) : bool := Nat.eqb (Str.code c) 58.
Definition is_hash (c : ascii) : bool := Nat.eqb (Str.code c) 35.
Definition is_qmark (c : ascii) : bool := Nat.eqb (Str.code c) 63.
Definition is_slash (c : ascii) : bool := Nat.eqb (Str.code c) 47.

Definition is_netloc_delim (c : ascii) : bool :=
  is_slash c || is_qmark c || is_hash c.

(** [i = url.find(':')]; the scheme is [url[:i]] when [i > 0], [url[0]] is
    a letter and every character of [url[:i]] is a scheme character. *)
Definition split_scheme (url : string) : string * string :=
  match Str.break_at is_colon url with
  | (String a pre, String _ rest) =>
      if Str.isalpha a && Str.forallb scheme_char (String a pre)
      then (Str.lower (String a pre), rest)
      else (EmptyString, url)
  | _ => (EmptyString, url)
  end.

(** [if url[:2] == '//': netloc, url = _splitnetloc(url, 2)] *)
Definition split_netloc (url : string) : string * string :=
  match url with
  | String a (String b rest) =>
      if is_slash a && is_slash b then Str.break_at is_netloc_delim rest
      else (EmptyString, url)
  | _ => (EmptyString, url)
  end.

(** [if c in url: url, x = url.split(c, 1)] *)
Definition split_off (p : ascii -> bool) (url : string) : string * string :=
  match Str.break_at p url with
  | (l, String _ r) => (l, r)
  | (l, EmptyString) => (l, EmptyString)
  end.

Definition urlsplit (url : string) : SplitResult :=
  let url := Str.remove is_unsafe (lstrip_c0 url) in
  let '(sch, url) := split_scheme url in
  let '(nl, url) := split_netloc url in
  let '(url, frag) := split_off is_hash url in
  let '(url, qry) := split_off is_qmark url in
  mkSplit sch nl url qry frag.

End Url.

Definition urlsplit := Url.urlsplit.

(** ** [same_domain] (the three discovery scripts share it verbatim) *)

Definition same_domain (base url : string) : bool :=
  Str.endswith (netloc (urlsplit url)) (netloc (urlsplit base)).

(** ** External collaborators

    Each class stands for a capability the scripts import; a crawl is a
    function of an instance of them. *)

(** A compiled pattern: [re.compile(p, flags)], with [re.I] the only flag
    the scripts pass. *)
Record Pattern := re_compile {
  pattern : string;
  ignorecase : bool
}.

(** The [re] module: which pattern texts compile and what [pat.search(s)]
    answers ([true] for a match object, [false] for [None]). *)
Class Regex := {
  re_valid : string -> bool;
  re_search : Pattern -> string -> bool
}.

(** What [re.I] means for the engine: a pattern compiled with it cannot tell
    two subjects apart that differ in letter case only. *)
Definition re_I_insensitive `{RE : Regex} : Prop :=
  forall p s t, ignorecase p = true -> Str.lower s = Str.lower t ->
    re_search p s = re_search p t.

(** [urllib.parse.urljoin] *)
Class UrlJoin := {
  urljoin : string -> string -> string
}.

(** An HTTP response: [r.status_code], [r.url] (the address served once
    redirects were followed), [r.text] and [r.content]. *)
Record Response := mkResponse {
  status_code : Z;
  r_url : string;
  text : string;
  content : string
}.

(** The two queries [discover_all] runs on a parsed page:
    [doc.xpath("//link[@rel='canonical']/@href")] and
    [doc.xpath("//a[@href]/@href")]. *)
Record HtmlDoc := mkHtmlDoc {
  link_canonical : list string;
  a_href : list string
}.

(** A parsed sitemap: the root tag's local name and the [.text] of the
    elements found by [.//{*}sitemap/{*}loc] and [.//{*}url/{*}loc]
    ([None] for an element without text). *)
Record XmlDoc := mkXmlDoc {
  localname : string;
  sitemap_loc : list (option string);
  url_loc : list (option string)
}.

(** The site as the httpx client of [discover_all] sees it; [None] stands
    for a raised exception (connection error, timeout, parse error). *)
Class Site := {
  cli_get : string -> option Response;
  html_fromstring : string -> option HtmlDoc;
  safe_fromstring : string -> option XmlDoc
}.

(** A page loaded in the browser: [page.url], the [href] of
    [link[rel="canonical"]] (outer [None]: no such element; inner [None]:
    the element has no [href]) and the [e.href] of every [a[href]]. *)
Record Page := mkPage {
  page_url : string;
  canonical_el : option (option string);
  hrefs : list string
}.

(** Playwright: [page.goto(url)], [None] when it raises. *)
Class Browser := {
  page_goto : string -> option Page
}.

(** What [scrape_page] reads off a BeautifulSoup tree: [soup.title] and its
    [.string], the text of each [p], the [src] of each [img] and the [href]
    of each [a]. *)
Record Soup := mkSoup {
  soup_title : option (option string);
  soup_p : list string;
  soup_img_src : list string;
  soup_a_href : list string
}.

(** [requests.get] and [BeautifulSoup(text, "html.parser")] *)
Class Requests := {
  requests_get : string -> option Response;
  BeautifulSoup : string -> Soup
}.

(** Observable effects of a crawl loop, in order of occurrence: the fetch
    attempted for a dequeued URL, an image download, the initial navigation
    to the base page, and [time.sleep(t)]. *)
Inductive event :=
| Fetch (u : string)
| Download (u : string)
| Open (u : string)
| Sleep (t : Q).

Definition fetch_of (e : event) : option string :=
  match e with Fetch u => Some u | _ => None end.

(** The URLs fetched for dequeued entries, in order. *)
Definition fetched (tr : list event) : list string := omap fetch_of tr.

Definition is_fetch (e : event) : bool :=
  match e with Fetch _ => true | _ => false end.

Definition is_sleep (e : event) : bool :=
  match e with Sleep _ => true | _ => false end.

(** A trace is polite when every fetch is followed by a sleep before the
    next fetch: among the fetches and sleeps after a fetch, the first one is
    not a fetch. *)
Fixpoint polite (tr : list event) : bool :=
  match tr with
  | [] => true
  | Fetch _ :: rest =>
      match List.filter (fun e => is_fetch e || is_sleep e) rest with
      | Fetch _ :: _ => false
      | _ => polite rest
      end
  | _ :: rest => polite rest
  end.

(** ** Pattern classifier ([read_patterns], [in_scope]) *)

(** The three sheets [read_patterns] reads: rows of
    [(allowed_path_regex, entity_hint)], the column [disallowed_path_regex]
    and the column [url] of the seeds (an empty cell is [None]). *)
Record Workbook := mkWorkbook {
  Include_Patterns : list (string * string);
  Exclude_Patterns : list string;
  Seeds : list (option string)
}.

Section classifier.
Context `{RE : Regex}.

(** [re.compile(p, re.I)]; [None] when [re.error] is raised. *)
Definition compile_I (p : string) : option Pattern :=
  if re_valid p then Some (re_compile p true) else None.

Fixpoint compile_allow (rows : list (string * string))
  : option (list (Pattern * string)) :=
  match rows with
  | [] => Some []
  | (p, hint) :: rest =>
      match compile_I p with
      | None => None
      | Some pat =>
          match compile_allow rest with
          | None => None
          | Some l => Some ((pat, hint) :: l)
          end
      end
  end.

Fixpoint compile_block (col : list string) : option (list Pattern) :=
  match col with
  | [] => Some []
  | p :: rest =>
      match compile_I p with
      | None => None
      | Some pat =>
          match compile_block rest with
          | None => None
          | Some l => Some (pat :: l)
          end
      end
  end.

(** [dropna().tolist()] *)
Definition dropna (col : list (option string)) : list string :=
  omap id col.

Definition read_patterns (wb : Workbook)
  : option (list string * list (Pattern * string) * list Pattern) :=
  let seeds := dropna (Seeds wb) in
  match compile_allow (Include_Patterns wb) with
  | None => None
  | Some allow =>
      match compile_block (Exclude_Patterns wb) with
      | None => None
      | Some block => Some (seeds, allow, block)
      end
  end.

(** [for pat, hint in allow: if pat.search(path): return True, hint] *)
Fixpoint scan_allow (path : string) (allow : list (Pattern * string))
  : bool * option string :=
  match allow with
  | [] => (false, None)
  | (pat, hint) :: rest =>
      if re_search pat path then (true, Some hint) else scan_allow path rest
  end.

Definition in_scope (url : string) (allow : list (Pattern * string))
    (block : list Pattern) : bool * option string :=
  let path := path (urlsplit url) in
  if existsb (fun b => re_search b path) block then (false, None)
  else scan_allow path allow.

End classifier.

(** ** Traversal state shared by the discovery loops

    [q] is the deque of [(url, depth)] entries, [seen] the set of URLs
    already dequeued (or short-circuited as a canonical target), [hits] the
    dict from URL to entity, [trace] the effects so far. *)
Record state := mkState {
  q : list (string * Z);
  seen : gset string;
  hits : gmap string (option string);
  trace : list event
}.

(** [if "#" in nxt: nxt = nxt.split("#", 1)[0]] *)
Definition strip_fragment (nxt : string) : string :=
  if Str.contains "#"%char nxt then fst (Str.split1 "#"%char nxt) else nxt.

(** [ok, ent = in_scope(u, allow, block); if ok: hits[u] = ent] *)
Definition record_hit `{RE : Regex} (allow : list (Pattern * string))
    (block : list Pattern) (u : string)
    (hits : gmap string (option string)) : gmap string (option string) :=
  let '(ok, ent) := in_scope u allow block in
  if ok then <[u := ent]> hits else hits.

(** ** How many iterations a depth-bounded loop can take

    [cost links n u] bounds the iterations caused by an entry for [u] that
    is [n] levels above the depth limit, when [links u] lists everything a
    visit of [u] can enqueue; [budget] adds it up over a queue. *)
Fixpoint cost (links : string -> list string) (n : nat) (u : string) : nat :=
  match n with
  | O => 1%nat
  | S n' => S (list_sum (map (cost links n') (links u)))
  end.

Definition entry_cost (links : string -> list string) (max_depth : Z)
    (e : string * Z) : nat :=
  cost links (Z.to_nat (max_depth + 1 - snd e)) (fst e).

Definition budget (links : string -> list string) (max_depth : Z)
    (queue : list (string * Z)) : nat :=
  list_sum (map (entry_cost links max_depth) queue).

(** ** [discovery_all.py] *)

Module All.
Section discovery.
Context `{RE : Regex} `{UJ : UrlJoin} `{ST : Site}.

(** The loop of [robots_sitemaps] over the lines of [robots.txt]; an
    exception ends it with what was collected. *)
Fixpoint robots_lines (lines : list string) (sitemaps : list string)
  : list string :=
  match lines with
  | [] => sitemaps
  | line :: rest =>
      let line := Str.strip line in
      if Str.startswith (Str.lower line) "sitemap:" then
        match Str.split1 ":"%char line with
        | (_, Some v) => robots_lines rest (sitemaps ++ [Str.strip v])
        | (_, None) => sitemaps
        end
      else robots_lines rest sitemaps
  end.

Definition robots_sitemaps (base : string) : list string :=
  let rob := urljoin base "/robots.txt" in
  match cli_get rob with
  | None => []
  | Some r =>
      if status_code r =? 200
      then robots_lines (Str.splitlines (text r)) []
      else []
  end.

(** [for sm in ...: child = sm.text.strip(); urls.extend(rec(child))];
    [sm.text] being [None] raises, and the handler returns [urls]. *)
Fixpoint extend_children (rec : string -> list string)
    (locs : list (option string)) (urls : list string) : list string :=
  match locs with
  | [] => urls
  | None :: _ => urls
  | Some t :: rest => extend_children rec rest (urls ++ rec (Str.strip t))
  end.

(** [for u in ...: urls.append(u.text.strip())] *)
Fixpoint append_locs (locs : list (option string)) (urls : list string)
  : list string :=
  match locs with
  | [] => urls
  | None :: _ => urls
  | Some t :: rest => append_locs rest (urls ++ [Str.strip t])
  end.

(** [parse_sitemap(cli, url)].  [limit] is the number of nested calls the
    interpreter still allows: past it the call raises [RecursionError],
    an [Exception], which the enclosing handler turns into no URLs from
    that call. *)
Fixpoint parse_sitemap (limit : nat) (url : string) : list string :=
  match limit with
  | O => []
  | S limit' =>
      match cli_get url with
      | None => []
      | Some r =>
          if negb (status_code r =? 200) then []
          else
            match safe_fromstring (content r) with
            | None => []
            | Some xml =>
                let tag := Str.lower (localname xml) in
                if String.eqb tag "sitemapindex" then
                  extend_children (parse_sitemap limit') (sitemap_loc xml) []
                else if String.eqb tag "urlset" then
                  append_locs (url_loc xml) []
                else []
            end
      end
  end.

Definition canonical_url (doc : HtmlDoc) (url : string) : string :=
  match link_canonical doc with
  | c0 :: _ => urljoin url c0
  | [] => url
  end.

Variables (base : string) (allow : list (Pattern * string))
          (block : list Pattern) (max_depth : Z) (throttle : Q).

(** The [nxt] values of the [for href in ...] loop that pass
    [same_domain]. *)
Definition next_links (can : string) (doc : HtmlDoc) : list string :=
  List.filter (same_domain base)
    (map (fun href => strip_fragment (urljoin can (Str.strip href)))
         (a_href doc)).

(** One iteration of [while q] for the popped entry [(url, d)]; [st] is
    the state after [q.popleft()].  A request that raises, a status other
    than 200 and a body that does not parse all end the iteration through
    [continue], before [time.sleep] is reached. *)
Definition visit (url : string) (d : Z) (st : state) : state :=
  if bool_decide (url ∈ seen st) || (d >? max_depth) then st
  else
    let seen1 := {[url]} ∪ seen st in
    let trace1 := trace st ++ [Fetch url] in
    let skipped := mkState (q st) seen1 (hits st) trace1 in
    match cli_get url with
    | None => skipped
    | Some r =>
        if negb (status_code r =? 200) then skipped
        else
          match html_fromstring (text r) with
          | None => skipped
          | Some doc =>
              let can := canonical_url doc url in
              let seen2 :=
                if bool_decide (can ∈ seen1) then seen1
                else {[can]} ∪ seen1 in
              let hits2 := record_hit allow block can (hits st) in
              let kids :=
                List.filter (fun nxt => negb (bool_decide (nxt ∈ seen2)))
                            (next_links can doc) in
              mkState (q st ++ map (fun nxt => (nxt, d + 1)) kids)
                      seen2 hits2 (trace1 ++ [Sleep throttle])
          end
    end.

(** [while q: url, d = q.popleft(); ...], at most [fuel] iterations. *)
Fixpoint bfs (fuel : nat) (st : state) : state :=
  match fuel with
  | O => st
  | S fuel' =>
      match q st with
      | [] => st
      | (url, d) :: rest =>
          bfs fuel' (visit url d (mkState rest (seen st) (hits st) (trace st)))
      end
  end.

(** Everything a visit of [url] can enqueue. *)
Definition page_links (url : string) : list string :=
  match cli_get url with
  | None => []
  | Some r =>
      if negb (status_code r =? 200) then []
      else
        match html_fromstring (text r) with
        | None => []
        | Some doc => next_links (canonical_url doc url) doc
        end
  end.

(** The sitemap pass: every same-domain, in-scope sitemap URL is recorded
    as listed. *)
Definition record_sitemap_url (hits : gmap string (option string))
    (u : string) : gmap string (option string) :=
  if same_domain base u then record_hit allow block u hits else hits.

Definition sitemap_urls (limit : nat) : list string :=
  flat_map (parse_sitemap limit) (robots_sitemaps base).

Definition sitemap_hits (limit : nat) : gmap string (option string) :=
  fold_left
    (fun hits sm => fold_left record_sitemap_url (parse_sitemap limit sm) hits)
    (robots_sitemaps base) ∅.

(** [for s in seeds: if same_domain(base, s): q.append((s, 0))] *)
Definition seed_queue (seeds : list string) : list (string * Z) :=
  map (fun s => (s, 0)) (List.filter (same_domain base) seeds).

Definition start (limit : nat) (seeds : list string) : state :=
  mkState (seed_queue seeds) ∅ (sitemap_hits limit) [].

(** The state in which [discover_all] leaves its loop. *)
Definition run (limit : nat) (seeds : list string) : state :=
  let st := start limit seeds in
  bfs (budget page_links max_depth (q st)) st.

Definition discover_all (limit : nat) (seeds : list string)
  : gmap string (option string) :=
  hits (run limit seeds).

End discovery.
End All.

(** ** [discovery_cdp.py] (and, with the same loop, [discovery_playwright.py]) *)

Module Cdp.
Section discovery.
Context `{RE : Regex} `{UJ : UrlJoin} `{BR : Browser}.

(** Truth value of a Python string. *)
Definition truthy (s : string) : bool :=
  match s with EmptyString => false | _ => true end.

Definition canonical_url (page_url : string) (canonical_href : option string)
  : string :=
  match canonical_href with
  | Some h => if truthy h then urljoin page_url h else page_url
  | None => page_url
  end.

(** [el = page.query_selector(...); if el: can_href = el.get_attribute("href")] *)
Definition can_href (pg : Page) : option string :=
  match canonical_el pg with
  | Some h => h
  | None => None
  end.

Variables (base : string) (allow : list (Pattern * string))
          (block : list Pattern) (depth : Z) (throttle : Q).

(** The [href] values of the [for href in hrefs] loop that are non-empty
    and, once their fragment is dropped, pass [same_domain]. *)
Definition next_links (pg : Page) : list string :=
  List.filter (same_domain base)
    (map strip_fragment (List.filter truthy (hrefs pg))).

Definition visit (url : string) (d : Z) (st : state) : state :=
  if bool_decide (url ∈ seen st) || (d >? depth) then st
  else
    let seen1 := {[url]} ∪ seen st in
    let trace1 := trace st ++ [Fetch url] in
    match page_goto url with
    | None => mkState (q st) seen1 (hits st) trace1
    | Some pg =>
        let can := canonical_url (page_url pg) (can_href pg) in
        let hits2 := record_hit allow block can (hits st) in
        let kids :=
          List.filter (fun href => negb (bool_decide (href ∈ seen1)))
                      (next_links pg) in
        mkState (q st ++ map (fun href => (href, d + 1)) kids)
                seen1 hits2 (trace1 ++ [Sleep throttle])
    end.

Fixpoint bfs (fuel : nat) (st : state) : state :=
  match fuel with
  | O => st
  | S fuel' =>
      match q st with
      | [] => st
      | (url, d) :: rest =>
          bfs fuel' (visit url d (mkState rest (seen st) (hits st) (trace st)))
      end
  end.

Definition page_links (url : string) : list string :=
  match page_goto url with
  | None => []
  | Some pg => next_links pg
  end.

Definition seed_queue (seeds : list string) : list (string * Z) :=
  map (fun s => (s, 0)) (List.filter (same_domain base) seeds).

Definition start (seeds : list string) : state :=
  mkState (seed_queue seeds) ∅ ∅ [Open base].

(** The state in which the loop is left; [None] when the initial
    [page.goto(base)], which no handler covers, raises. *)
Definition run (seeds : list string) : option state :=
  match page_goto base with
  | None => None
  | Some _ =>
      let st := start seeds in
      Some (bfs (budget page_links depth (q st)) st)
  end.

Definition discover_over_cdp (seeds : list string)
  : option (gmap string (option string)) :=
  option_map hits (run seeds).

End discovery.
End Cdp.

(** ** [crawler.py] *)

Record page_data := mkPageData {
  pd_url : string;
  pd_title : string;
  pd_content : string;
  pd_images : list string;
  pd_all_links : list string
}.

(** The state of [crawl]'s loop; [visited] is the module-level set, which
    outlives the call. *)
Record crawl_state := mkCrawl {
  to_visit : list (string * Z);
  visited : gset string;
  results : list page_data;
  log : list event
}.

Module Crawler.
Section crawler.
Context `{UJ : UrlJoin} `{RQ : Requests}.

(** [soup.title.string.strip() if soup.title else "No Title"]; [None]
    when [soup.title.string] is [None] and [.strip()] raises. *)
Definition title_of (soup : Soup) : option string :=
  match soup_title soup with
  | None => Some "No Title"
  | Some None => None
  | Some (Some t) => Some (Str.strip t)
  end.

(** [scrape_page(url, domain)] reading the global [visited]: the page
    record, the links to follow and the image downloads attempted.
    Writing the images to disk is left out. *)
Definition scrape_page (visited : gset string) (url domain : string)
  : option page_data * list string * list event :=
  match requests_get url with
  | None => (None, [], [])
  | Some r =>
      if negb (status_code r =? 200) then (None, [], [])
      else
        let soup := BeautifulSoup (text r) in
        match title_of soup with
        | None => (None, [], [])
        | Some title =>
            let content := String.concat " " (map Str.strip (soup_p soup)) in
            let images := map (urljoin url) (soup_img_src soup) in
            let all_links := map (urljoin url) (soup_a_href soup) in
            let links :=
              List.filter
                (fun link => String.eqb (netloc (urlsplit link)) domain
                             && negb (bool_decide (link ∈ visited)))
                all_links in
            (Some (mkPageData url title content images all_links),
             links, map Download images)
        end
  end.

Variables (max_pages max_depth : Z).

(** One iteration of [while to_visit and len(results) < max_pages] for the
    popped entry. *)
Definition visit (domain url : string) (depth : Z) (st : crawl_state)
  : crawl_state :=
  if bool_decide (url ∈ visited st) || (depth >? max_depth) then st
  else
    let visited1 := {[url]} ∪ visited st in
    let '(page, links, downloads) := scrape_page visited1 url domain in
    let log1 := log st ++ [Fetch url] ++ downloads in
    match page with
    | Some pd =>
        let kids :=
          List.filter (fun link => negb (bool_decide (link ∈ visited1)))
                      links in
        mkCrawl (to_visit st ++ map (fun link => (link, depth + 1)) kids)
                visited1 (results st ++ [pd]) (log1 ++ [Sleep 1])
    | None =>
        mkCrawl (to_visit st) visited1 (results st) (log1 ++ [Sleep 1])
    end.

Fixpoint loop (fuel : nat) (domain : string) (st : crawl_state)
  : crawl_state :=
  match fuel with
  | O => st
  | S fuel' =>
      match to_visit st with
      | [] => st
      | (url, depth) :: rest =>
          if Z.of_nat (length (results st)) <? max_pages then
            loop fuel' domain
                 (visit domain url depth
                    (mkCrawl rest (visited st) (results st) (log st)))
          else st
      end
  end.

(** Everything a visit of [url] can enqueue. *)
Definition page_links (domain url : string) : list string :=
  match requests_get url with
  | None => []
  | Some r =>
      if negb (status_code r =? 200) then []
      else
        List.filter (fun link => String.eqb (netloc (urlsplit link)) domain)
          (map (urljoin url) (soup_a_href (BeautifulSoup (text r))))
  end.

(** [crawl(start_url, max_pages, max_depth)] called when the global set
    holds [visited0]: the state in which the loop is left. *)
Definition run (visited0 : gset string) (start_url : string) : crawl_state :=
  let domain := netloc (urlsplit start_url) in
  let st := mkCrawl [(start_url, 0)] visited0 [] [] in
  loop (budget (page_links domain) max_depth (to_visit st)) domain st.

(** The returned [results] and the global [visited] after the call. *)
Definition crawl (visited0 : gset string) (start_url : string)
  : list page_data * gset string :=
  let st := run visited0 start_url in
  (results st, visited st).

(** Two calls in one process: the second starts from the set the first
    left behind. *)
Definition crawl_twice (start1 start2 : string)
  : list page_data * list page_data :=
  let '(r1, v1) := crawl ∅ start1 in
  let '(r2, _) := crawl v1 start2 in
  (r1, r2).

End crawler.
End Crawler.

(** ** Vocabulary of the properties *)

(** The part of [s] in front of the first character satisfying [p]. *)
Definition before (p : ascii -> bool) (s : string) : string :=
  fst (Str.break_at p s).

Definition lacks (p : ascii -> bool) (s : string) : bool :=
  Str.forallb (fun c => negb (p c)) s.

(** [t] is empty or starts a query ([?...]) or a fragment ([#...]). *)
Definition query_or_fragment (t : string) : bool :=
  match t with
  | EmptyString => true
  | String c _ => Url.is_qmark c || Url.is_hash c
  end.

Definition is_q_or_h (c : ascii) : bool := Url.is_qmark c || Url.is_hash c.

(** Invariant of the crawl loops: the fetches made so far are pairwise
    distinct and each fetched URL is in the visited set. *)
Definition fetch_inv (st : state) : Prop :=
  NoDup (fetched (trace st)) /\ forall u, u ∈ fetched (trace st) -> u ∈ seen st.

Definition crawl_inv (st : crawl_state) : Prop :=
  NoDup (fetched (log st)) /\ forall u, u ∈ fetched (log st) -> u ∈ visited st.

Section vocabulary.
Context `{RE : Regex} `{UJ : UrlJoin} `{ST : Site}.
Variables (base : string) (allow : list (Pattern * string))
          (block : list Pattern) (max_depth : Z) (throttle : Q).

Local Abbreviation next_links := (All.next_links base).

(** The three ways an iteration can end. *)
Inductive visit_outcome (url : string) (d : Z) (st : state) : state -> Prop :=
| visit_skip :
    url ∈ seen st \/ d > max_depth ->
    visit_outcome url d st st
| visit_failed :
    url ∉ seen st -> d <= max_depth ->
    All.page_links base url = [] ->
    (cli_get url = None
     \/ (exists r, cli_get url = Some r
                   /\ (status_code r <> 200
                       \/ html_fromstring (text r) = None))) ->
    visit_outcome url d st
      (mkState (q st) ({[url]} ∪ seen st) (hits st) (trace st ++ [Fetch url]))
| visit_page r doc seen2 :
    url ∉ seen st -> d <= max_depth ->
    cli_get url = Some r -> status_code r = 200 ->
    html_fromstring (text r) = Some doc ->
    All.page_links base url = next_links (All.canonical_url doc url) doc ->
    seen2 = {[All.canonical_url doc url]} ∪ ({[url]} ∪ seen st) ->
    visit_outcome url d st
      (mkState
         (q st ++ map (fun nxt => (nxt, d + 1))
                      (List.filter (fun nxt => negb (bool_decide (nxt ∈ seen2)))
                                   (next_links (All.canonical_url doc url) doc)))
         seen2
         (record_hit allow block (All.canonical_url doc url) (hits st))
         ((trace st ++ [Fetch url]) ++ [Sleep throttle])).

(** [k] is a sitemap URL recorded as listed. *)
Definition from_sitemap (l : list string) (k : string) (e : option string) : Prop :=
  k ∈ l /\ same_domain base k = true /\ in_scope k allow block = (true, e).

(** [k] is the canonical URL [discover_all] computed for a page it
    fetched: the first declared canonical link resolved against the
    requested URL, else the requested URL. *)
Definition from_page (tr : list event) (k : string) (e : option string) : Prop :=
  in_scope k allow block = (true, e)
  /\ exists u r doc,
       u ∈ fetched tr /\ cli_get u = Some r /\ status_code r = 200
       /\ html_fromstring (text r) = Some doc
       /\ k = All.canonical_url doc u.

Definition hits_inv (sm : list string) (st : state) : Prop :=
  forall k e, hits st !! k = Some e ->
    from_sitemap sm k e \/ from_page (trace st) k e.

(** The sitemap at [url] cannot be used: the request raises, the status is
    not 200, or the body does not parse. *)
Definition sitemap_fails (url : string) : Prop :=
  cli_get url = None
  \/ exists r, cli_get url = Some r
               /\ (status_code r <> 200 \/ safe_fromstring (content r) = None).

(** The canonical URL [discover_all] computes for the page served at
    [u], if it gets one. *)
Definition page_canonical (u : string) : option string :=
  match cli_get u with
  | None => None
  | Some r =>
      if negb (status_code r =? 200) then None
      else option_map (fun doc => All.canonical_url doc u)
                      (html_fromstring (text r))
  end.

(** Every key is the canonical URL of the page it addresses. *)
Definition keys_are_canonical (hits : gmap string (option string)) : Prop :=
  forall k, is_Some (hits !! k) -> page_canonical k = Some k.

(** Two keys never address the same page. *)
Definition one_key_per_page (hits : gmap string (option string)) : Prop :=
  forall k1 k2 c, is_Some (hits !! k1) -> is_Some (hits !! k2) ->
    page_canonical k1 = Some c -> page_canonical k2 = Some c -> k1 = k2.

End vocabulary.

(** ** Executable instances of the collaborators

    Small stand-ins on which the definitions above can be run: a matcher
    for literal patterns, a resolver for absolute and root-relative
    references, and sites given by finite tables. *)

Module Example.

(** [p] occurs somewhere in [s]. *)
Fixpoint find_sub (s p : string) : bool :=
  Str.startswith s p ||
  match s with
  | EmptyString => false
  | String _ s' => find_sub s' p
  end.

(** Literal patterns, anchored at the start when they begin with [^];
    with [re.I] both sides are compared in lower case. *)
Definition literal_search (p : Pattern) (s : string) : bool :=
  let pat := if ignorecase p then Str.lower (pattern p) else pattern p in
  let subj := if ignorecase p then Str.lower s else s in
  match pat with
  | String "^"%char rest => Str.startswith subj rest
  | _ => find_sub subj pat
  end.

Definition literal_re : Regex :=
  {| re_valid := fun _ => true; re_search := literal_search |}.

(** References with a scheme stand for themselves, the empty reference
    for the base, references starting with [/] are placed under the
    base's scheme and network location, anything else is appended. *)
Definition simple_urljoin (base ref : string) : string :=
  match ref with
  | EmptyString => base
  | String c _ =>
      if negb (String.eqb (scheme (urlsplit ref)) "") then ref
      else if Url.is_slash c then
        scheme (urlsplit base) +:+ "://" +:+ netloc (urlsplit base) +:+ ref
      else base +:+ ref
  end.

Definition simple_join : UrlJoin := {| urljoin := simple_urljoin |}.

Fixpoint assoc {A : Type} (k : string) (l : list (string * A)) : option A :=
  match l with
  | [] => None
  | (k', v) :: l' => if String.eqb k k' then Some v else assoc k l'
  end.

(** A site given by three tables: responses by URL (a URL that is not
    listed fails to connect), parsed pages and parsed sitemaps by body. *)
Definition site_of (pages : list (string * Response))
    (docs : list (string * HtmlDoc)) (xmls : list (string * XmlDoc)) : Site :=
  {| cli_get := fun u => assoc u pages;
     html_fromstring := fun t => assoc t docs;
     safe_fromstring := fun t => assoc t xmls |}.

(** A 200 response served at [u] with body [body]. *)
Definition ok (u body : string) : Response := mkResponse 200 u body body.

Definition browser_of (pages : list (string * Page)) : Browser :=
  {| page_goto := fun u => assoc u pages |}.

Definition requests_of (pages : list (string * Response))
    (soups : list (string * Soup)) : Requests :=
  {| requests_get := fun u => assoc u pages;
     BeautifulSoup := fun t =>
       match assoc t soups with
       | Some s => s
       | None => mkSoup None [] [] []
       end |}.

Definition LF : string := String (ascii_of_nat 10) EmptyString.

(** The workbook of the examples. *)
Definition workbook : Workbook :=
  mkWorkbook [("^/plans/", "plan"); ("^/devices/", "device")]
             ["/admin"]
             [Some "https://example.com/"; None].

Definition allow : list (Pattern * string) :=
  [(re_compile "^/plans/" true, "plan"); (re_compile "^/devices/" true, "device")].

Definition block : list Pattern := [re_compile "/admin" true].

Definition base : string := "https://example.com".

(** The home page links to a plan (twice, once with a fragment), to an
    about page and to another site; there is no [robots.txt]. *)
Definition shop : Site :=
  site_of
    [("https://example.com/", ok "https://example.com/" "home");
     ("https://example.com/plans/unlimited",
      ok "https://example.com/plans/unlimited" "plan");
     ("https://example.com/about", ok "https://example.com/about" "about")]
    [("home", mkHtmlDoc [] ["/plans/unlimited"; "/about";
                            " /plans/unlimited#details "; "https://other.org/x"]);
     ("plan", mkHtmlDoc [] []);
     ("about", mkHtmlDoc [] ["/"])]
    [].

(** One seed answers 404, the next one 200. *)
Definition flaky : Site :=
  site_of
    [("https://example.com/gone",
      mkResponse 404 "https://example.com/gone" "" "");
     ("https://example.com/plans/a", ok "https://example.com/plans/a" "plan")]
    [("plan", mkHtmlDoc [] [])]
    [].

(** The same situation in the browser: the first navigation times out. *)
Definition flaky_browser : Browser :=
  browser_of
    [("https://example.com", mkPage "https://example.com/" None []);
     ("https://example.com/plans/a",
      mkPage "https://example.com/plans/a" None [])].

(** [/old-plan] redirects to [/plans/new], which declares no canonical
    link. *)
Definition moved : Site :=
  site_of
    [("https://example.com/old-plan",
      ok "https://example.com/plans/new" "new")]
    [("new", mkHtmlDoc [] [])]
    [].

Definition moved_browser : Browser :=
  browser_of
    [("https://example.com", mkPage "https://example.com/" None []);
     ("https://example.com/old-plan",
      mkPage "https://example.com/plans/new" None [])].

(** The sitemap lists a plan page under an address with a query string;
    the page declares its canonical address without it. *)
Definition aliased : Site :=
  site_of
    [("https://example.com/robots.txt",
      ok "https://example.com/robots.txt"
         ("User-agent: *" +:+ LF +:+
          "Sitemap: https://example.com/sitemap.xml" +:+ LF));
     ("https://example.com/sitemap.xml",
      ok "https://example.com/sitemap.xml" "urls");
     ("https://example.com/plans/a?ref=nav",
      ok "https://example.com/plans/a?ref=nav" "plan-a");
     ("https://example.com/plans/a", ok "https://example.com/plans/a" "plan-a")]
    [("plan-a", mkHtmlDoc ["https://example.com/plans/a"] [])]
    [("urls", mkXmlDoc "urlset" [] [Some "https://example.com/plans/a?ref=nav"])].

(** [robots.txt] names three sitemaps, the second of which is missing; the
    first is an index of an index of a URL set, the third an index with a
    failing child between two good ones. *)
Definition mapped : Site :=
  site_of
    [("https://example.com/robots.txt",
      ok "https://example.com/robots.txt"
         ("SITEMAP: https://example.com/sitemap_index.xml" +:+ LF +:+
          "Sitemap:https://example.com/missing.xml" +:+ LF +:+
          "Disallow: /admin" +:+ LF +:+
          "sitemap: https://example.com/sitemap_mixed.xml"));
     ("https://example.com/sitemap_index.xml",
      ok "https://example.com/sitemap_index.xml" "index");
     ("https://example.com/child_index.xml",
      ok "https://example.com/child_index.xml" "child");
     ("https://example.com/urls.xml", ok "https://example.com/urls.xml" "urls");
     ("https://example.com/sitemap_mixed.xml",
      ok "https://example.com/sitemap_mixed.xml" "mixed");
     ("https://example.com/broken.xml",
      mkResponse 500 "https://example.com/broken.xml" "" "");
     ("https://example.com/more.xml", ok "https://example.com/more.xml" "more")]
    []
    [("index", mkXmlDoc "sitemapindex"
                 [Some "https://example.com/child_index.xml"] []);
     ("child", mkXmlDoc "SitemapIndex"
                 [Some " https://example.com/urls.xml "] []);
     ("urls", mkXmlDoc "urlset" []
                [Some "https://example.com/plans/unlimited";
                 Some " https://example.com/devices/phone "]);
     ("mixed", mkXmlDoc "sitemapindex"
                 [Some "https://example.com/urls.xml";
                  Some "https://example.com/broken.xml";
                  Some "https://example.com/more.xml"] []);
     ("more", mkXmlDoc "urlset" [] [Some "https://example.com/about"])].

(** A two-page site for [crawl]. *)
Definition blog : Requests :=
  requests_of
    [("https://example.com/", ok "https://example.com/" "home");
     ("https://example.com/about", ok "https://example.com/about" "about")]
    [("home", mkSoup (Some (Some " Home ")) ["Welcome "] [] ["/about"]);
     ("about", mkSoup None [] [] ["/"])].

End Example.

(** ** Further vocabulary and instances *)

(** The depths of a breadth-first queue: never decreasing from front to
    back, and no entry more than one level deeper than another. *)
Definition bfs_ordered (depths : list Z) : Prop :=
  StronglySorted Z.le depths
  /\ forall a b, a ∈ depths -> b ∈ depths -> b <= a + 1.

Section more_vocabulary.
Context `{RE : Regex} `{UJ : UrlJoin} `{ST : Site}.
Variables (allow : list (Pattern * string)) (block : list Pattern).

(** Every entry of the map is a verdict of the classifier. *)
Definition hits_sound_at (h : gmap string (option string)) : Prop :=
  forall k e, h !! k = Some e -> in_scope k allow block = (true, e).

(** Every fetched page with an in-scope canonical URL is in the map. *)
Definition pages_recorded (st : state) : Prop :=
  forall u c e, u ∈ fetched (trace st) -> page_canonical u = Some c ->
    in_scope c allow block = (true, e) -> hits st !! c = Some e.

(** After a page is fetched its canonical URL is in [seen] and is not
    fetched later. *)
Definition canonical_shortcut (st : state) : Prop :=
  forall l1 u l2 c,
    fetched (trace st) = l1 ++ u :: l2 -> page_canonical u = Some c ->
    c ∈ seen st /\ c ∉ l2.

End more_vocabulary.

(** The fetches and sleeps of a trace, in order. *)
Definition pace (tr : list event) : list event :=
  List.filter (fun e => is_fetch e || is_sleep e) tr.

(** The last fetch or sleep of the trace, if there is one, is a sleep. *)
Definition settled (tr : list event) : bool :=
  match last (pace tr) with
  | Some (Fetch _) => false
  | _ => true
  end.

(** [s[n:]] *)
Fixpoint string_drop (n : nat) (s : string) : string :=
  match n, s with
  | O, _ => s
  | S n', String _ s' => string_drop n' s'
  | S _, EmptyString => EmptyString
  end.

(** What a line of [robots.txt] declares: for a line that, stripped and in
    lower case, starts with [sitemap:], the stripped rest of the stripped
    line after those eight characters. *)
Definition directive_value (line : string) : option string :=
  let line := Str.strip line in
  if Str.startswith (Str.lower line) "sitemap:"
  then Some (Str.strip (string_drop 8 line))
  else None.

(** ** [write_results]

    The rows handed to the [URL_Inventory] sheet, one dict per hit in the
    order of [sorted(hits.items())]; [discovery] is the label the script
    writes (["sitemap+crawl"], ["cdp"] or ["playwright"]) and [now] the
    formatted time stamp.  The summary sheet and the writing of the
    workbook are left out. *)
Record Row := mkRow {
  row_url : string;
  row_entity : option string;
  row_section : string;
  row_priority : string;
  row_discovery : string;
  row_status : string;
  row_requires_login : string;
  row_format : string;
  row_language : string;
  row_last_seen : string;
  row_content_hash : string;
  row_owner : string;
  row_notes : string
}.

(** ["P1" if e in ("plan", "device", "promo") else "P2"] *)
Definition priority (e : option string) : string :=
  match e with
  | Some h =>
      if String.eqb h "plan" || String.eqb h "device" || String.eqb h "promo"
      then "P1" else "P2"
  | None => "P2"
  end.

(** The order of [sorted] on the items of a dict: by key, keys being
    pairwise distinct. *)
Definition item_le (x y : string * option string) : Prop :=
  String.le x.1 y.1.

#[global] Instance item_le_dec : RelDecision item_le.
Proof. intros x y. unfold item_le. apply _. Defined.

Definition sorted_items (hits : gmap string (option string))
  : list (string * option string) :=
  merge_sort item_le (map_to_list hits).

Definition row_of (discovery now : string) (item : string * option string) : Row :=
  mkRow item.1 item.2 "" (priority item.2) discovery "todo" "" "" "en" now
        "" "" "".

Definition write_results (discovery now : string)
    (hits : gmap string (option string)) : list Row :=
  map (row_of discovery now) (sorted_items hits).

(** ** [save_pdf]

    The flowables handed to [doc.build]: per page three paragraphs, the
    first five images and the first ten links under their headings, and a
    spacer. *)
Inductive flowable :=
| Paragraph (text style : string)
| Spacer (width height : Z).

(** [s[:n]] *)
Definition string_take (n : nat) (s : string) : string := String.substring 0 n s.

Definition page_story (page : page_data) : list flowable :=
  [Paragraph ("<b>URL:</b> " +:+ pd_url page) "BodyText";
   Paragraph ("<b>Title:</b> " +:+ pd_title page) "Heading2";
   Paragraph (string_take 1500 (pd_content page) +:+ "...") "BodyText"]
  ++ match pd_images page with
     | [] => []
     | _ => Paragraph "<b>Images:</b>" "BodyText"
            :: map (fun img => Paragraph img "BodyText") (take 5 (pd_images page))
     end
  ++ match pd_all_links page with
     | [] => []
     | _ => Paragraph "<b>Links:</b>" "BodyText"
            :: map (fun lnk => Paragraph lnk "BodyText") (take 10 (pd_all_links page))
     end
  ++ [Spacer 1 20].

Definition save_pdf (data : list page_data) : list flowable :=
  flat_map page_story data.

(** The home page links to a plan under an address with a query string, to
    the address that page declares canonical, and to an about page. *)
Definition canon_site : Site :=
  Example.site_of
    [("https://example.com/", Example.ok "https://example.com/" "home");
     ("https://example.com/plans/a?ref=nav",
      Example.ok "https://example.com/plans/a?ref=nav" "plan-a");
     ("https://example.com/plans/a", Example.ok "https://example.com/plans/a" "plan-a");
     ("https://example.com/about", Example.ok "https://example.com/about" "about")]
    [("home", mkHtmlDoc [] ["/plans/a?ref=nav"; "/plans/a"; "/about"]);
     ("plan-a", mkHtmlDoc ["https://example.com/plans/a"] []);
     ("about", mkHtmlDoc [] [])]
    [].

(** A URL set and an index, each with an empty [loc] between two good
    ones. *)
Definition gappy_site : Site :=
  Example.site_of
    [("https://example.com/gappy.xml", Example.ok "https://example.com/gappy.xml" "gappy");
     ("https://example.com/gappy_index.xml",
      Example.ok "https://example.com/gappy_index.xml" "gappy-index");
     ("https://example.com/urls.xml", Example.ok "https://example.com/urls.xml" "urls");
     ("https://example.com/more.xml", Example.ok "https://example.com/more.xml" "more")]
    []
    [("gappy", mkXmlDoc "urlset" []
                 [Some "https://example.com/plans/a"; None;
                  Some "https://example.com/plans/b"]);
     ("gappy-index", mkXmlDoc "sitemapindex"
                 [Some "https://example.com/urls.xml"; None;
                  Some "https://example.com/more.xml"] []);
     ("urls", mkXmlDoc "urlset" [] [Some "https://example.com/plans/unlimited"]);
     ("more", mkXmlDoc "urlset" [] [Some "https://example.com/about"])].

(** The shop as the browser sees it: links are absolute, one is empty, one
    carries a fragment, one leaves the site. *)
Definition shop_browser : Browser :=
  Example.browser_of
    [("https://example.com", mkPage "https://example.com/" None []);
     ("https://example.com/",
      mkPage "https://example.com/" None
        ["https://example.com/plans/unlimited#details"; "";
         "https://example.com/about"; "https://other.org/x"]);
     ("https://example.com/plans/unlimited",
      mkPage "https://example.com/plans/unlimited?session=1"
             (Some (Some "/plans/unlimited")) []);
     ("https://example.com/about",
      mkPage "https://example.com/about" (Some None) ["https://example.com/"])].

(** An engine that refuses pattern texts with an opening parenthesis and
    otherwise matches like [Example.literal_re]. *)
Definition picky_re : Regex :=
  {| re_valid := fun p => negb (Str.contains "("%char p);
     re_search := Example.literal_search |}.

(** * Properties *)

(** ** Strings and [urlsplit] *)

Lemma endswith_nil (suf : string) :
  Str.endswith "" suf = String.eqb "" suf || false.
Proof. reflexivity. Qed.

Lemma endswith_cons (a : ascii) (s suf : string) :
  Str.endswith (String a s) suf
  = String.eqb (String a s) suf || Str.endswith s suf.
Proof. reflexivity. Qed.

Lemma endswith_app (pre suf : string) : Str.endswith (pre +:+ suf) suf = true.
Proof.
  induction pre as [|a pre IH].
  - change ("" +:+ suf) with suf.
    destruct suf; [reflexivity|].
    rewrite endswith_cons, String.eqb_refl. reflexivity.
  - change (String a pre +:+ suf) with (String a (pre +:+ suf)).
    rewrite endswith_cons, IH. apply orb_true_r.
Qed.

Lemma endswith_inv (s suf : string) :
  Str.endswith s suf = true -> exists pre, s = pre +:+ suf.
Proof.
  induction s as [|a s IH]; intros E.
  - rewrite endswith_nil, orb_false_r in E.
    apply String.eqb_eq in E. subst. by exists "".
  - rewrite endswith_cons in E. apply orb_true_iff in E as [E|E].
    + apply String.eqb_eq in E. exists "". by rewrite E.
    + destruct (IH E) as [pre ->]. by exists (String a pre).
Qed.

Lemma endswith_spec (s suf : string) :
  Str.endswith s suf = true <-> exists pre, s = pre +:+ suf.
Proof.
  split; [apply endswith_inv|]. intros [pre ->]. apply endswith_app.
Qed.

Lemma endswith_empty (s : string) : Str.endswith s "" = true.
Proof.
  apply endswith_spec. exists s.
  induction s as [|a s IH]; [reflexivity|].
  change (String a s +:+ "") with (String a (s +:+ "")). by rewrite <- IH.
Qed.

(** C10: [same_domain] is a bare suffix test on the two network locations,
    so a host that only shares trailing characters with the base counts as
    in-domain, and a base without network location accepts every URL. *)
Theorem same_domain_suffix (base url : string) :
  (same_domain base url = true <->
     exists pre, netloc (urlsplit url) = pre +:+ netloc (urlsplit base))
  /\ (netloc (urlsplit base) = "" -> same_domain base url = true)
  /\ netloc (urlsplit "https://example.com") = "example.com"
  /\ netloc (urlsplit "https://evilexample.com/login") = "evilexample.com"
  /\ same_domain "https://example.com" "https://evilexample.com/login" = true
  /\ netloc (urlsplit "example.com") = "".
Proof.
  split; [apply endswith_spec|].
  split; [|repeat split; reflexivity].
  intros E. unfold same_domain. rewrite E. apply endswith_empty.
Qed.

Lemma same_domain_suffix_witness :
  same_domain "example.com" "https://unrelated.org/x" = true.
Proof.
  apply (proj1 (proj2 (same_domain_suffix "example.com" "https://unrelated.org/x"))).
  reflexivity.
Defined.

(** ** The classifier *)

Section classifier_facts.
Context `{RE : Regex}.

Lemma scan_allow_none (path : string) (allow : list (Pattern * string)) :
  (forall p h, (p, h) ∈ allow -> re_search p path = false) ->
  scan_allow path allow = (false, None).
Proof.
  induction allow as [|[p h] allow IH]; intros Hno; [reflexivity|].
  simpl. rewrite (Hno p h) by left.
  apply IH. intros p' h' Hin. apply (Hno p' h'). by right.
Qed.

Lemma scan_allow_first (path : string) (pre post : list (Pattern * string))
    (pat : Pattern) (hint : string) :
  (forall p h, (p, h) ∈ pre -> re_search p path = false) ->
  re_search pat path = true ->
  scan_allow path (pre ++ (pat, hint) :: post) = (true, Some hint).
Proof.
  induction pre as [|[p h] pre IH]; intros Hno Hm; simpl.
  - by rewrite Hm.
  - rewrite (Hno p h) by left.
    apply IH; [|done]. intros p' h' Hin. apply (Hno p' h'). by right.
Qed.

Lemma existsb_block (path : string) (block : list Pattern) :
  existsb (fun b => re_search b path) block = true <->
  exists b, b ∈ block /\ re_search b path = true.
Proof.
  rewrite existsb_exists. split; intros (b & Hb & Hm); exists b;
    (split; [by apply list_elem_of_In|done]).
Qed.

Lemma existsb_block_none (path : string) (block : list Pattern) :
  (forall b, b ∈ block -> re_search b path = false) ->
  existsb (fun b => re_search b path) block = false.
Proof.
  intros Hno. apply not_true_is_false. intros E.
  apply existsb_block in E as (b & Hb & Hm).
  rewrite (Hno b Hb) in Hm. discriminate.
Qed.

(** C2: a URL whose path is matched by some exclude rule is out of scope
    with no entity, whatever the include rules are and in whatever order
    either list is given. *)
Theorem in_scope_exclude_veto (url : string)
    (allow allow' : list (Pattern * string)) (block block' : list Pattern) :
  (exists b, b ∈ block /\ re_search b (path (urlsplit url)) = true) ->
  block ≡ₚ block' ->
  in_scope url allow block = (false, None)
  /\ in_scope url allow' block' = (false, None).
Proof.
  intros (b & Hb & Hm) Hperm. unfold in_scope.
  assert (E : forall bl, b ∈ bl ->
              existsb (fun b => re_search b (path (urlsplit url))) bl = true).
  { intros bl Hin. apply existsb_block. eauto. }
  rewrite !E; [done| |done]. by rewrite <- Hperm.
Qed.

End classifier_facts.

(** ** The path component ignores query and fragment *)

Lemma app_nil_l_s (s : string) : "" +:+ s = s.
Proof. reflexivity. Qed.

Lemma app_cons_s (a : ascii) (s t : string) :
  String a s +:+ t = String a (s +:+ t).
Proof. reflexivity. Qed.

Lemma app_nil_r_s (s : string) : s +:+ "" = s.
Proof.
  induction s as [|a s IH]; [reflexivity|]. by rewrite app_cons_s, IH.
Qed.

Lemma app_assoc_s (a b c : string) : (a +:+ b) +:+ c = a +:+ (b +:+ c).
Proof.
  induction a as [|x a IH]; [reflexivity|]. by rewrite !app_cons_s, IH.
Qed.

Lemma break_at_cons (p : ascii -> bool) (a : ascii) (s : string) :
  Str.break_at p (String a s)
  = if p a then ("", String a s)
    else (String a (fst (Str.break_at p s)), snd (Str.break_at p s)).
Proof. simpl. destruct (p a); [done|]. by destruct (Str.break_at p s). Qed.

Lemma forallb_cons (p : ascii -> bool) (a : ascii) (s : string) :
  Str.forallb p (String a s) = p a && Str.forallb p s.
Proof. reflexivity. Qed.

Lemma forallb_app (p : ascii -> bool) (s t : string) :
  Str.forallb p (s +:+ t) = Str.forallb p s && Str.forallb p t.
Proof.
  induction s as [|a s IH]; [reflexivity|].
  rewrite app_cons_s, !forallb_cons, IH. by rewrite andb_assoc.
Qed.

Lemma break_at_app (p : ascii -> bool) (s t : string) :
  Str.break_at p (s +:+ t)
  = if lacks p s
    then (s +:+ fst (Str.break_at p t), snd (Str.break_at p t))
    else (fst (Str.break_at p s), snd (Str.break_at p s) +:+ t).
Proof.
  unfold lacks. induction s as [|a s IH].
  - rewrite app_nil_l_s. simpl. by destruct (Str.break_at p t).
  - rewrite app_cons_s, !break_at_cons, forallb_cons, IH.
    destruct (p a); simpl; [done|].
    by destruct (Str.forallb (fun c => negb (p c)) s).
Qed.

Lemma break_at_lacks (p : ascii -> bool) (s : string) :
  lacks p s = true -> Str.break_at p s = (s, "").
Proof.
  unfold lacks. induction s as [|a s IH]; [done|].
  rewrite forallb_cons, break_at_cons. intros [Ha Hs]%andb_true_iff.
  apply negb_true_iff in Ha. rewrite Ha, (IH Hs). done.
Qed.

Lemma break_at_hit (p : ascii -> bool) (s : string) :
  lacks p s = false ->
  exists c r, snd (Str.break_at p s) = String c r /\ p c = true.
Proof.
  unfold lacks. induction s as [|a s IH]; [done|].
  rewrite forallb_cons, break_at_cons. destruct (p a) eqn:Ha; simpl.
  - intros _. by exists a, s.
  - apply IH.
Qed.

Lemma forallb_break_snd (q p : ascii -> bool) (s : string) :
  Str.forallb q s = true -> Str.forallb q (snd (Str.break_at p s)) = true.
Proof.
  induction s as [|a s IH]; [done|].
  rewrite forallb_cons, break_at_cons. intros E.
  destruct (p a); cbn [snd]; [by rewrite forallb_cons|].
  apply andb_true_iff in E as [_ E]. by apply IH.
Qed.

Lemma before_app_lacks (p : ascii -> bool) (s t : string) :
  lacks p s = true -> before p (s +:+ t) = s +:+ before p t.
Proof. intros E. unfold before. by rewrite break_at_app, E. Qed.

Lemma split_off_fst (p : ascii -> bool) (s : string) :
  fst (Url.split_off p s) = before p s.
Proof.
  unfold Url.split_off, before.
  by destruct (Str.break_at p s) as [l [|c r]].
Qed.

Lemma ascii_of_code (c : ascii) (n : nat) :
  Nat.eqb (Str.code c) n = true -> c = ascii_of_nat n.
Proof.
  intros E%Nat.eqb_eq. unfold Str.code in E.
  by rewrite <- E, ascii_nat_embedding.
Qed.

Lemma q_or_h_cases (c : ascii) :
  is_q_or_h c = true -> c = "?"%char \/ c = "#"%char.
Proof.
  unfold is_q_or_h, Url.is_qmark, Url.is_hash.
  intros [E|E]%orb_true_iff; apply ascii_of_code in E; auto.
Qed.

Lemma lstrip_c0_app (s : string) (c : ascii) (t : string) :
  Url.is_c0_or_space c = false ->
  Url.lstrip_c0 (s +:+ String c t) = Url.lstrip_c0 s +:+ String c t.
Proof.
  intros Hc. induction s as [|a s IH].
  - rewrite app_nil_l_s. simpl. by rewrite Hc.
  - rewrite app_cons_s. simpl. destruct (Url.is_c0_or_space a); [done|].
    by rewrite app_cons_s.
Qed.

Lemma remove_app (p : ascii -> bool) (s t : string) :
  Str.remove p (s +:+ t) = Str.remove p s +:+ Str.remove p t.
Proof.
  induction s as [|a s IH]; [done|].
  rewrite app_cons_s. simpl. destruct (p a); [done|].
  by rewrite app_cons_s, IH.
Qed.

Lemma forallb_remove (q p : ascii -> bool) (s : string) :
  Str.forallb q s = true -> Str.forallb q (Str.remove p s) = true.
Proof.
  induction s as [|a s IH]; [done|].
  rewrite forallb_cons. intros [Ha Hs]%andb_true_iff. simpl.
  destruct (p a); [by apply IH|]. by rewrite forallb_cons, Ha, IH.
Qed.

Lemma forallb_lstrip_c0 (q : ascii -> bool) (s : string) :
  Str.forallb q s = true -> Str.forallb q (Url.lstrip_c0 s) = true.
Proof.
  induction s as [|a s IH]; [done|].
  rewrite forallb_cons. intros [Ha Hs]%andb_true_iff. simpl.
  destruct (Url.is_c0_or_space a); [by apply IH|].
  by rewrite forallb_cons, Ha, Hs.
Qed.

Lemma q_or_h_facts (c : ascii) :
  is_q_or_h c = true ->
  Url.is_c0_or_space c = false /\ Url.is_unsafe c = false
  /\ Url.is_colon c = false /\ Url.scheme_char c = false
  /\ Url.is_slash c = false /\ Url.is_netloc_delim c = true.
Proof. intros [-> | ->]%q_or_h_cases; repeat split; reflexivity. Qed.

Lemma split_scheme_app (u : string) (c : ascii) (t : string) :
  is_q_or_h c = true ->
  Url.split_scheme (u +:+ String c t)
  = (fst (Url.split_scheme u), snd (Url.split_scheme u) +:+ String c t).
Proof.
  intros Hc. destruct (q_or_h_facts c Hc) as (_ & _ & Hcol & Hsch & _ & _).
  unfold Url.split_scheme. rewrite break_at_app.
  destruct (lacks Url.is_colon u) eqn:L.
  - rewrite (break_at_lacks _ _ L), break_at_cons, Hcol. cbn [fst snd].
    set (l2 := fst (Str.break_at Url.is_colon t)).
    set (r2 := snd (Str.break_at Url.is_colon t)).
    assert (Hbad : Str.forallb Url.scheme_char (u +:+ String c l2) = false).
    { rewrite forallb_app, forallb_cons, Hsch. apply andb_false_r. }
    destruct (u +:+ String c l2) as [|a pre] eqn:E.
    + by destruct u.
    + rewrite Hbad, andb_false_r. destruct r2; by destruct u.
  - destruct (break_at_hit _ _ L) as (c' & r & Hr & _).
    destruct (Str.break_at Url.is_colon u) as [l r0]. cbn [fst snd] in *.
    subst r0. rewrite app_cons_s. destruct l as [|a pre]; [done|].
    by destruct (Str.isalpha a && Str.forallb Url.scheme_char (String a pre)).
Qed.

Lemma split_scheme_forallb (q : ascii -> bool) (u : string) :
  Str.forallb q u = true -> Str.forallb q (snd (Url.split_scheme u)) = true.
Proof.
  intros Hu. unfold Url.split_scheme.
  pose proof (forallb_break_snd q Url.is_colon u Hu) as Hs.
  destruct (Str.break_at Url.is_colon u) as [[|a pre] [|c r]]; try done.
  cbn [snd] in Hs. rewrite forallb_cons in Hs.
  apply andb_true_iff in Hs as [_ Hs].
  by destruct (Str.isalpha a && Str.forallb Url.scheme_char (String a pre)).
Qed.

Lemma split_netloc_app (u : string) (c : ascii) (t : string) :
  is_q_or_h c = true ->
  Url.split_netloc (u +:+ String c t)
  = (fst (Url.split_netloc u), snd (Url.split_netloc u) +:+ String c t).
Proof.
  intros Hc. destruct (q_or_h_facts c Hc) as (_ & _ & _ & _ & Hsl & Hd).
  unfold Url.split_netloc.
  destruct u as [|a [|b rest]].
  - rewrite app_nil_l_s, Hsl. by destruct t.
  - rewrite !app_cons_s, app_nil_l_s, Hsl, andb_false_r. done.
  - rewrite !app_cons_s. destruct (Url.is_slash a && Url.is_slash b); [|done].
    rewrite break_at_app. destruct (lacks Url.is_netloc_delim rest) eqn:L.
    + rewrite (break_at_lacks _ _ L), break_at_cons, Hd. cbn [fst snd].
      by rewrite app_nil_r_s.
    + done.
Qed.

Lemma split_netloc_forallb (q : ascii -> bool) (u : string) :
  Str.forallb q u = true -> Str.forallb q (snd (Url.split_netloc u)) = true.
Proof.
  intros Hu. unfold Url.split_netloc.
  destruct u as [|a [|b rest]]; try done.
  destruct (Url.is_slash a && Url.is_slash b); [|done].
  apply forallb_break_snd.
  rewrite !forallb_cons in Hu. by apply andb_true_iff in Hu as [_ [_ ?]%andb_true_iff].
Qed.

Lemma urlsplit_path (u : string) :
  path (urlsplit u)
  = before Url.is_qmark (before Url.is_hash
      (snd (Url.split_netloc (snd (Url.split_scheme
        (Str.remove Url.is_unsafe (Url.lstrip_c0 u))))))).
Proof.
  unfold urlsplit, Url.urlsplit.
  destruct (Url.split_scheme _) as [sch u1]. cbn [snd].
  destruct (Url.split_netloc u1) as [nl u2]. cbn [snd].
  rewrite <- !split_off_fst.
  destruct (Url.split_off Url.is_hash u2) as [u3 frag]. cbn [fst].
  by destruct (Url.split_off Url.is_qmark u3) as [u4 qry].
Qed.

Lemma lacks_weaken (p q : ascii -> bool) (s : string) :
  (forall c, p c = true -> q c = true) -> lacks q s = true -> lacks p s = true.
Proof.
  intros Himp. unfold lacks. induction s as [|a s IH]; [done|].
  rewrite !forallb_cons. intros [Ha Hs]%andb_true_iff.
  rewrite (IH Hs), andb_true_r. apply negb_true_iff in Ha.
  destruct (p a) eqn:E; [|done]. by rewrite (Himp a E) in Ha.
Qed.

Lemma path_stage_clean (u : string) :
  lacks is_q_or_h u = true ->
  before Url.is_qmark (before Url.is_hash u) = u.
Proof.
  intros L.
  assert (Lh : lacks Url.is_hash u = true).
  { apply (lacks_weaken _ is_q_or_h); [|done].
    intros c E. unfold is_q_or_h. by rewrite E, orb_true_r. }
  assert (Lq : lacks Url.is_qmark u = true).
  { apply (lacks_weaken _ is_q_or_h); [|done].
    intros c E. unfold is_q_or_h. by rewrite E. }
  unfold before. rewrite (break_at_lacks _ _ Lh). cbn [fst].
  by rewrite (break_at_lacks _ _ Lq).
Qed.

Lemma path_stage_tail (u : string) (c : ascii) (t : string) :
  lacks is_q_or_h u = true -> is_q_or_h c = true ->
  before Url.is_qmark (before Url.is_hash (u +:+ String c t)) = u.
Proof.
  intros L Hc.
  assert (Lh : lacks Url.is_hash u = true).
  { apply (lacks_weaken _ is_q_or_h); [|done].
    intros x E. unfold is_q_or_h. by rewrite E, orb_true_r. }
  assert (Lq : lacks Url.is_qmark u = true).
  { apply (lacks_weaken _ is_q_or_h); [|done].
    intros x E. unfold is_q_or_h. by rewrite E. }
  rewrite (before_app_lacks _ _ _ Lh).
  destruct (q_or_h_cases c Hc) as [-> | ->].
  - unfold before at 2. rewrite break_at_cons. cbn [Url.is_hash Str.code].
    change (Url.is_hash "?") with false. cbn [fst].
    rewrite (before_app_lacks _ _ _ Lq). unfold before.
    rewrite break_at_cons. change (Url.is_qmark "?") with true. cbn [fst].
    apply app_nil_r_s.
  - unfold before at 2. rewrite break_at_cons.
    change (Url.is_hash "#") with true. cbn [fst].
    rewrite app_nil_r_s. unfold before. by rewrite (break_at_lacks _ _ Lq).
Qed.

(** Appending a query or a fragment to a URL that has neither leaves the
    path component unchanged. *)
Lemma urlsplit_path_tail (u t : string) :
  lacks is_q_or_h u = true -> query_or_fragment t = true ->
  path (urlsplit (u +:+ t)) = path (urlsplit u).
Proof.
  intros L Ht. destruct t as [|c t]; [by rewrite app_nil_r_s|].
  change (is_q_or_h c = true) in Ht.
  destruct (q_or_h_facts c Ht) as (Hc0 & Hun & _).
  rewrite !urlsplit_path.
  rewrite (lstrip_c0_app _ _ _ Hc0), remove_app.
  simpl (Str.remove Url.is_unsafe (String c t)). rewrite Hun.
  set (u1 := Str.remove Url.is_unsafe (Url.lstrip_c0 u)).
  assert (L1 : lacks is_q_or_h u1 = true).
  { by apply forallb_remove, forallb_lstrip_c0. }
  rewrite (split_scheme_app _ _ _ Ht). cbn [snd].
  rewrite (split_netloc_app _ _ _ Ht). cbn [snd].
  set (u3 := snd (Url.split_netloc (snd (Url.split_scheme u1)))).
  assert (L3 : lacks is_q_or_h u3 = true).
  { by apply split_netloc_forallb, split_scheme_forallb. }
  by rewrite (path_stage_tail _ _ _ L3 Ht), (path_stage_clean _ L3).
Qed.

Section classifier_claims.
Context `{RE : Regex}.

Lemma compile_allow_I (rows : list (string * string))
    (allow : list (Pattern * string)) :
  compile_allow rows = Some allow ->
  forall p h, (p, h) ∈ allow -> ignorecase p = true.
Proof.
  revert allow. induction rows as [|[src hint] rows IH]; intros allow E p h Hin.
  - injection E as <-. by apply elem_of_nil in Hin.
  - simpl in E. unfold compile_I in E. destruct (re_valid src); [|done].
    destruct (compile_allow rows) as [l|]; [|done]. injection E as <-.
    apply elem_of_cons in Hin as [Hin|Hin].
    + injection Hin as -> _. reflexivity.
    + by apply (IH l eq_refl p h).
Qed.

Lemma compile_block_I (col : list string) (block : list Pattern) :
  compile_block col = Some block ->
  forall p, p ∈ block -> ignorecase p = true.
Proof.
  revert block. induction col as [|src col IH]; intros block E p Hin.
  - injection E as <-. by apply elem_of_nil in Hin.
  - simpl in E. unfold compile_I in E. destruct (re_valid src); [|done].
    destruct (compile_block col) as [l|]; [|done]. injection E as <-.
    apply elem_of_cons in Hin as [->|Hin]; [done|].
    by apply (IH l eq_refl p).
Qed.

Lemma read_patterns_I (wb : Workbook) (seeds : list string)
    (allow : list (Pattern * string)) (block : list Pattern) :
  read_patterns wb = Some (seeds, allow, block) ->
  (forall p h, (p, h) ∈ allow -> ignorecase p = true)
  /\ (forall p, p ∈ block -> ignorecase p = true).
Proof.
  unfold read_patterns. intros E.
  destruct (compile_allow _) as [a|] eqn:Ea; [|done].
  destruct (compile_block _) as [b|] eqn:Eb; [|done].
  injection E as _ <- <-.
  split; [by apply (compile_allow_I _ _ Ea)|by apply (compile_block_I _ _ Eb)].
Qed.

(** The verdict depends on the path only through the answers of the
    rules' searches. *)
Lemma in_scope_ext (url url' : string) (allow : list (Pattern * string))
    (block : list Pattern) :
  (forall p h, (p, h) ∈ allow ->
     re_search p (path (urlsplit url')) = re_search p (path (urlsplit url))) ->
  (forall p, p ∈ block ->
     re_search p (path (urlsplit url')) = re_search p (path (urlsplit url))) ->
  in_scope url' allow block = in_scope url allow block.
Proof.
  intros Ha Hb. unfold in_scope. cbv zeta.
  assert (Eb : existsb (fun b => re_search b (path (urlsplit url'))) block
               = existsb (fun b => re_search b (path (urlsplit url))) block).
  { clear Ha. induction block as [|b block IH]; [done|]. simpl.
    rewrite (Hb b) by left. f_equal. apply IH.
    intros p Hp. apply Hb. by right. }
  rewrite Eb. clear Hb Eb. destruct (existsb _ block); [done|].
  induction allow as [|[p h] allow IH]; [done|]. simpl.
  rewrite (Ha p h) by left. destruct (re_search p _); [done|].
  apply IH. intros p' h' Hin. apply (Ha p' h'). by right.
Qed.

(** C3: when no exclude rule matches the path, the verdict is the hint of
    the first include rule, in configuration order, that matches it, and
    out of scope when none does; only the path is looked at (a query or
    fragment added to the URL changes nothing), and for rules loaded by
    [read_patterns] the letter case of the path is immaterial. *)
Theorem in_scope_first_include (url : string)
    (allow : list (Pattern * string)) (block : list Pattern) :
  (forall b, b ∈ block -> re_search b (path (urlsplit url)) = false) ->
  (forall pre pat hint post,
      allow = pre ++ (pat, hint) :: post ->
      (forall p h, (p, h) ∈ pre -> re_search p (path (urlsplit url)) = false) ->
      re_search pat (path (urlsplit url)) = true ->
      in_scope url allow block = (true, Some hint))
  /\ ((forall p h, (p, h) ∈ allow ->
         re_search p (path (urlsplit url)) = false) ->
      in_scope url allow block = (false, None))
  /\ (forall t, lacks is_q_or_h url = true -> query_or_fragment t = true ->
      in_scope (url +:+ t) allow block = in_scope url allow block)
  /\ (forall wb seeds, read_patterns wb = Some (seeds, allow, block) ->
      (forall p h, (p, h) ∈ allow -> ignorecase p = true)
      /\ (forall p, p ∈ block -> ignorecase p = true)
      /\ (re_I_insensitive ->
          forall url',
            Str.lower (path (urlsplit url')) = Str.lower (path (urlsplit url)) ->
            in_scope url' allow block = in_scope url allow block)).
Proof.
  intros Hno. split; [|split; [|split]].
  - intros pre pat hint post -> Hpre Hm. unfold in_scope.
    rewrite (existsb_block_none _ _ Hno). by apply scan_allow_first.
  - intros Hnone. unfold in_scope.
    rewrite (existsb_block_none _ _ Hno). by apply scan_allow_none.
  - intros t L Ht. unfold in_scope. by rewrite (urlsplit_path_tail _ _ L Ht).
  - intros wb seeds Hrp.
    destruct (read_patterns_I _ _ _ _ Hrp) as [Ia Ib].
    split; [done|]. split; [done|].
    intros HI url' Hcase. apply in_scope_ext.
    + intros p h Hin. apply HI; [by apply (Ia p h)|done].
    + intros p Hin. apply HI; [by apply Ib|done].
Qed.

End classifier_claims.

(** ** The loop of [discover_all] *)

Lemma fetched_app (tr1 tr2 : list event) :
  fetched (tr1 ++ tr2) = fetched tr1 ++ fetched tr2.
Proof. apply omap_app. Qed.

Section all_loop.
Context `{RE : Regex} `{UJ : UrlJoin} `{ST : Site}.
Variables (base : string) (allow : list (Pattern * string))
          (block : list Pattern) (max_depth : Z) (throttle : Q).

Local Abbreviation visit := (All.visit base allow block max_depth throttle).
Local Abbreviation bfs := (All.bfs base allow block max_depth throttle).
Local Abbreviation next_links := (All.next_links base).

Lemma visit_outcome_visit (url : string) (d : Z) (st : state) :
  visit_outcome base allow block max_depth throttle url d st (visit url d st).
Proof.
  unfold All.visit.
  destruct (bool_decide (url ∈ seen st)) eqn:Hseen; cbn [orb].
  { apply visit_skip. left. by apply bool_decide_eq_true in Hseen. }
  apply bool_decide_eq_false in Hseen.
  destruct (Z.gtb_spec d max_depth) as [Hd|Hd].
  { apply visit_skip. right. lia. }
  destruct (cli_get url) as [r|] eqn:Hget;
    [|apply visit_failed; auto; unfold All.page_links; by rewrite Hget].
  destruct (Z.eqb_spec (status_code r) 200) as [Hst|Hst]; cbn [negb].
  2:{ apply visit_failed; eauto. unfold All.page_links. rewrite Hget.
      by destruct (Z.eqb_spec (status_code r) 200). }
  destruct (html_fromstring (text r)) as [doc|] eqn:Hdoc.
  2:{ apply visit_failed; eauto. unfold All.page_links. rewrite Hget.
      destruct (Z.eqb_spec (status_code r) 200); [|done]. by rewrite Hdoc. }
  set (can := All.canonical_url doc url).
  assert (Hs2 : (if bool_decide (can ∈ {[url]} ∪ seen st)
                 then {[url]} ∪ seen st
                 else {[can]} ∪ ({[url]} ∪ seen st))
                = {[can]} ∪ ({[url]} ∪ seen st)).
  { case_bool_decide; set_solver. }
  rewrite Hs2. eapply visit_page; eauto.
  unfold All.page_links. rewrite Hget. destruct (Z.eqb_spec (status_code r) 200); [|done].
  by rewrite Hdoc.
Qed.

Lemma fetch_inv_pop (st : state) (rest : list (string * Z)) :
  fetch_inv st -> fetch_inv (mkState rest (seen st) (hits st) (trace st)).
Proof. done. Qed.

Lemma fetch_inv_fetch (st : state) (url : string) (qu : list (string * Z))
    (h : gmap string (option string)) :
  fetch_inv st -> url ∉ seen st ->
  fetch_inv (mkState qu ({[url]} ∪ seen st) h (trace st ++ [Fetch url])).
Proof.
  intros [Hnd Hin] Hnew. split; cbn [trace seen]; rewrite fetched_app.
  - apply NoDup_app. split; [done|]. split; [|apply NoDup_singleton].
    intros u Hu ->%list_elem_of_singleton. by apply Hnew, Hin.
  - intros u [Hu| ->%list_elem_of_singleton]%elem_of_app; [|set_solver].
    apply Hin in Hu. set_solver.
Qed.

Lemma fetch_inv_visit (url : string) (d : Z) (st : state) :
  fetch_inv st -> fetch_inv (visit url d st).
Proof.
  intros Hinv. destruct (visit_outcome_visit url d st) as [| |r doc seen2]; [done| |].
  - by apply fetch_inv_fetch.
  - subst seen2.
    destruct (fetch_inv_fetch st url [] ∅ Hinv ltac:(done)) as [Hnd Hin].
    cbn [trace seen] in Hnd, Hin.
    split; cbn [trace seen]; rewrite fetched_app, app_nil_r; [done|].
    intros u Hu. apply Hin in Hu. set_solver.
Qed.

Lemma fetch_inv_bfs (fuel : nat) (st : state) :
  fetch_inv st -> fetch_inv (bfs fuel st).
Proof.
  revert st. induction fuel as [|fuel IH]; intros st Hinv; [done|].
  simpl. destruct (q st) as [|[url d] rest]; [done|].
  apply IH, fetch_inv_visit, fetch_inv_pop, Hinv.
Qed.

(** [seen] only grows. *)
Lemma seen_visit (url : string) (d : Z) (st : state) :
  seen st ⊆ seen (visit url d st).
Proof.
  destruct (visit_outcome_visit url d st) as [| |r doc seen2];
    cbn [seen]; set_solver.
Qed.

Lemma seen_bfs (fuel : nat) (st : state) : seen st ⊆ seen (bfs fuel st).
Proof.
  revert st. induction fuel as [|fuel IH]; intros st; [done|].
  simpl. destruct (q st) as [|[url d] rest]; [done|].
  etrans; [|apply IH]. etrans; [|apply seen_visit]. done.
Qed.

End all_loop.

(** ** Termination of depth-bounded loops *)

Lemma cost_pos (links : string -> list string) (n : nat) (u : string) :
  (1 <= cost links n u)%nat.
Proof. destruct n; simpl; lia. Qed.

Lemma list_sum_filter_le {A : Type} (f : A -> nat) (p : A -> bool) (l : list A) :
  (list_sum (map f (List.filter p l)) <= list_sum (map f l))%nat.
Proof.
  induction l as [|a l IH]; [done|]. simpl. destruct (p a); simpl; lia.
Qed.

Lemma budget_app (links : string -> list string) (max_depth : Z)
    (q1 q2 : list (string * Z)) :
  budget links max_depth (q1 ++ q2)
  = (budget links max_depth q1 + budget links max_depth q2)%nat.
Proof. unfold budget. by rewrite map_app, list_sum_app. Qed.

Lemma budget_children (links : string -> list string) (max_depth d : Z)
    (kids : list string) :
  budget links max_depth (map (fun k => (k, d + 1)) kids)
  = list_sum (map (cost links (Z.to_nat (max_depth + 1 - (d + 1)))) kids).
Proof.
  unfold budget. rewrite map_map. f_equal.
Qed.

(** Visiting [url] at a depth within the limit pays for any part of its
    links enqueued one level deeper. *)
Lemma budget_visit (links : string -> list string) (max_depth d : Z)
    (url : string) (p : string -> bool) :
  d <= max_depth ->
  (budget links max_depth
     (map (fun k => (k, (d + 1)%Z)) (List.filter p (links url)))
   < entry_cost links max_depth (url, d))%nat.
Proof.
  intros Hd. rewrite budget_children. unfold entry_cost. cbn [fst snd].
  replace (Z.to_nat (max_depth + 1 - d))
    with (S (Z.to_nat (max_depth + 1 - (d + 1)))) by lia.
  simpl. pose proof (list_sum_filter_le
    (cost links (Z.to_nat (max_depth + 1 - (d + 1)))) p (links url)). lia.
Qed.

Lemma budget_zero (links : string -> list string) (max_depth : Z)
    (queue : list (string * Z)) :
  budget links max_depth queue = 0%nat -> queue = [].
Proof.
  destruct queue as [|e queue]; [done|]. unfold budget. simpl.
  pose proof (cost_pos links (Z.to_nat (max_depth + 1 - snd e)) (fst e)).
  unfold entry_cost. lia.
Qed.

Section all_termination.
Context `{RE : Regex} `{UJ : UrlJoin} `{ST : Site}.
Variables (base : string) (allow : list (Pattern * string))
          (block : list Pattern) (max_depth : Z) (throttle : Q).

Local Abbreviation visit := (All.visit base allow block max_depth throttle).
Local Abbreviation bfs := (All.bfs base allow block max_depth throttle).
Local Abbreviation links := (All.page_links base).

Lemma budget_step (url : string) (d : Z) (st : state) :
  (budget links max_depth (q (visit url d st))
   < entry_cost links max_depth (url, d) + budget links max_depth (q st))%nat.
Proof.
  pose proof (cost_pos links (Z.to_nat (max_depth + 1 - d)) url) as Hpos.
  destruct (visit_outcome_visit base allow block max_depth throttle url d st)
    as [| |r doc seen2 _ Hd _ _ _ Hlinks _]; cbn [q];
    [unfold entry_cost; cbn [fst snd]; lia..|].
  rewrite budget_app, <- Hlinks.
  pose proof (budget_visit links max_depth d url
                (fun nxt => negb (bool_decide (nxt ∈ seen2))) Hd). lia.
Qed.

(** With fuel for the budget of its queue the loop runs to completion. *)
Lemma bfs_completes (fuel : nat) (st : state) :
  (budget links max_depth (q st) <= fuel)%nat -> q (bfs fuel st) = [].
Proof.
  revert st. induction fuel as [|fuel IH]; intros st Hb.
  - simpl. apply (budget_zero links max_depth). lia.
  - simpl. destruct (q st) as [|[url d] rest] eqn:Hq; [done|].
    apply IH.
    pose proof (budget_step url d (mkState rest (seen st) (hits st) (trace st))) as Hs.
    cbn [q] in Hs. unfold budget in Hb. simpl in Hb. unfold budget at 2 in Hs. lia.
Qed.

(** Once the queue is empty further fuel changes nothing. *)
Lemma bfs_done (fuel : nat) (st : state) : q st = [] -> bfs fuel st = st.
Proof. intros Hq. destruct fuel; simpl; [done|]. by rewrite Hq. Qed.

Lemma bfs_more (fuel extra : nat) (st : state) :
  q (bfs fuel st) = [] -> bfs (fuel + extra) st = bfs fuel st.
Proof.
  revert st. induction fuel as [|fuel IH]; intros st Hq.
  - simpl in *. by apply bfs_done.
  - simpl in *. destruct (q st) as [|[url d] rest]; [done|]. by apply IH.
Qed.

End all_termination.

(** ** What the hit map holds *)

Section all_hits.
Context `{RE : Regex} `{UJ : UrlJoin} `{ST : Site}.
Variables (base : string) (allow : list (Pattern * string))
          (block : list Pattern) (max_depth : Z) (throttle : Q).

Local Abbreviation visit := (All.visit base allow block max_depth throttle).
Local Abbreviation bfs := (All.bfs base allow block max_depth throttle).

Lemma record_hit_lookup (u k : string) (e : option string)
    (h : gmap string (option string)) :
  record_hit allow block u h !! k = Some e ->
  (k = u /\ in_scope u allow block = (true, e)) \/ h !! k = Some e.
Proof.
  unfold record_hit. destruct (in_scope u allow block) as [[|] ent] eqn:E; [|auto].
  destruct (decide (u = k)) as [->|Hne].
  - rewrite lookup_insert_eq. intros [= ->]. auto.
  - rewrite lookup_insert_ne by done. auto.
Qed.

Lemma record_sitemap_urls (l : list string) (acc : gmap string (option string))
    (k : string) (e : option string) :
  fold_left (All.record_sitemap_url base allow block) l acc !! k = Some e ->
  acc !! k = Some e \/ from_sitemap base allow block l k e.
Proof.
  revert acc. induction l as [|u l IH]; intros acc Hk; [auto|].
  simpl in Hk. apply IH in Hk as [Hk|(Hin & Hd & Hs)].
  - unfold All.record_sitemap_url in Hk.
    destruct (same_domain base u) eqn:Hd; [|auto].
    apply record_hit_lookup in Hk as [[-> Hs]|Hk]; [|auto].
    right. split; [by left|done].
  - right. split; [by right|done].
Qed.

Lemma sitemap_hits_lookup (limit : nat) (k : string) (e : option string) :
  All.sitemap_hits base allow block limit !! k = Some e ->
  from_sitemap base allow block (All.sitemap_urls base limit) k e.
Proof.
  unfold All.sitemap_hits, All.sitemap_urls.
  assert (G : forall sms acc,
    fold_left (fun hits sm =>
                 fold_left (All.record_sitemap_url base allow block)
                           (All.parse_sitemap limit sm) hits) sms acc !! k
    = Some e ->
    acc !! k = Some e \/ from_sitemap base allow block (flat_map (All.parse_sitemap limit) sms) k e).
  { induction sms as [|sm sms IH]; intros acc Hk; [auto|].
    simpl in Hk. apply IH in Hk as [Hk|(Hin & Hd & Hs)].
    - apply record_sitemap_urls in Hk as [Hk|(Hin & Hd & Hs)]; [auto|].
      right. split; [|done]. simpl. apply elem_of_app. by left.
    - right. split; [|done]. simpl. apply elem_of_app. by right. }
  intros Hk. apply G in Hk as [Hk|Hk]; [|done].
  by rewrite lookup_empty in Hk.
Qed.

Lemma from_page_mono (tr tr' : list event) (k : string) (e : option string) :
  from_page allow block tr k e -> from_page allow block (tr ++ tr') k e.
Proof.
  intros (Hs & u & r & doc & Hu & Hrest). split; [done|].
  exists u, r, doc. split; [|done]. rewrite fetched_app. apply elem_of_app. by left.
Qed.

Lemma hits_inv_visit (sm : list string) (url : string) (d : Z) (st : state) :
  hits_inv base allow block sm st -> hits_inv base allow block sm (visit url d st).
Proof.
  intros Hinv.
  destruct (visit_outcome_visit base allow block max_depth throttle url d st)
    as [| |r doc seen2 _ _ Hget Hst Hdoc _ _]; [done| |]; intros k e Hk; cbn [hits trace] in *.
  - destruct (Hinv k e Hk) as [?|?]; [by left|right]. by apply from_page_mono.
  - apply record_hit_lookup in Hk as [[-> Hs]|Hk].
    + right. split; [done|]. exists url, r, doc. repeat split; try done.
      rewrite !fetched_app. apply elem_of_app. left. apply elem_of_app. right.
      by left.
    + destruct (Hinv k e Hk) as [?|?]; [by left|right].
      by do 2 apply from_page_mono.
Qed.

Lemma hits_inv_bfs (sm : list string) (fuel : nat) (st : state) :
  hits_inv base allow block sm st -> hits_inv base allow block sm (bfs fuel st).
Proof.
  revert st. induction fuel as [|fuel IH]; intros st Hinv; [done|].
  simpl. destruct (q st) as [|[url d] rest]; [done|].
  by apply IH, hits_inv_visit.
Qed.

End all_hits.

(** ** Sitemap resolution *)

Section sitemaps.
Context `{UJ : UrlJoin} `{ST : Site}.

Lemma extend_children_all (rec : string -> list string) (children urls : list string) :
  All.extend_children rec (map Some children) urls
  = urls ++ flat_map (fun c => rec (Str.strip c)) children.
Proof.
  revert urls. induction children as [|c children IH]; intros urls; simpl.
  - by rewrite app_nil_r.
  - by rewrite IH, app_assoc.
Qed.

Lemma append_locs_all (leaves urls : list string) :
  All.append_locs (map Some leaves) urls = urls ++ map Str.strip leaves.
Proof.
  revert urls. induction leaves as [|c leaves IH]; intros urls; simpl.
  - by rewrite app_nil_r.
  - by rewrite IH, <- app_assoc.
Qed.

Lemma parse_sitemap_fails (limit : nat) (url : string) :
  sitemap_fails url -> All.parse_sitemap limit url = [].
Proof.
  intros Hf. destruct limit as [|limit]; [done|]. simpl.
  destruct Hf as [-> | (r & -> & [Hst|Hp])]; [done| |].
  - by destruct (Z.eqb_spec (status_code r) 200).
  - rewrite Hp. by destruct (negb _).
Qed.

Lemma parse_sitemap_index (limit : nat) (url : string) (r : Response)
    (xml : XmlDoc) (children : list string) :
  cli_get url = Some r -> status_code r = 200 ->
  safe_fromstring (content r) = Some xml ->
  Str.lower (localname xml) = "sitemapindex" ->
  sitemap_loc xml = map Some children ->
  All.parse_sitemap (S limit) url
  = flat_map (fun c => All.parse_sitemap limit (Str.strip c)) children.
Proof.
  intros Hget Hst Hp Htag Hloc. simpl.
  rewrite Hget, Hst, Hp, Htag, Hloc. cbn [Z.eqb Pos.eqb negb String.eqb].
  change ("sitemapindex" =? "sitemapindex")%string with true. cbn iota.
  by rewrite extend_children_all.
Qed.

Lemma parse_sitemap_urlset (limit : nat) (url : string) (r : Response)
    (xml : XmlDoc) (leaves : list string) :
  cli_get url = Some r -> status_code r = 200 ->
  safe_fromstring (content r) = Some xml ->
  Str.lower (localname xml) = "urlset" ->
  url_loc xml = map Some leaves ->
  All.parse_sitemap (S limit) url = map Str.strip leaves.
Proof.
  intros Hget Hst Hp Htag Hloc. simpl.
  rewrite Hget, Hst, Hp, Htag, Hloc.
  change (negb (200 =? 200)) with false.
  change ("urlset" =? "sitemapindex")%string with false.
  change ("urlset" =? "urlset")%string with true. cbn iota.
  by rewrite append_locs_all.
Qed.


(** C8: a missing or failing [robots.txt] gives no sitemaps; a sitemap
    that fails gives no URLs, and the sitemaps listed before and after it,
    in an index or in [robots.txt], contribute what they contribute
    without it. *)
Theorem sitemap_failure_is_local (base : string) (limit : nat) (bad : string) :
  sitemap_fails bad ->
  ((cli_get (urljoin base "/robots.txt") = None
    \/ exists r0, cli_get (urljoin base "/robots.txt") = Some r0
                  /\ status_code r0 <> 200) ->
   All.robots_sitemaps base = [] /\ All.sitemap_urls base limit = [])
  /\ All.parse_sitemap limit bad = []
  /\ (forall url r xml before after,
        cli_get url = Some r -> status_code r = 200 ->
        safe_fromstring (content r) = Some xml ->
        Str.lower (localname xml) = "sitemapindex" ->
        sitemap_loc xml = map Some (before ++ bad :: after) ->
        sitemap_fails (Str.strip bad) ->
        All.parse_sitemap (S limit) url
        = flat_map (fun c => All.parse_sitemap limit (Str.strip c)) before
          ++ flat_map (fun c => All.parse_sitemap limit (Str.strip c)) after)
  /\ (forall before after,
        All.robots_sitemaps base = before ++ bad :: after ->
        All.sitemap_urls base limit
        = flat_map (All.parse_sitemap limit) before
          ++ flat_map (All.parse_sitemap limit) after).
Proof.
  intros Hbad.
  assert (Hrob : (cli_get (urljoin base "/robots.txt") = None
                  \/ exists r0, cli_get (urljoin base "/robots.txt") = Some r0
                                /\ status_code r0 <> 200) ->
                 All.robots_sitemaps base = []).
  { unfold All.robots_sitemaps. intros [-> | (r0 & -> & Hst)]; [done|].
    by destruct (Z.eqb_spec (status_code r0) 200). }
  split; [|split; [|split]].
  - intros Hno. split; [by apply Hrob|].
    unfold All.sitemap_urls. by rewrite (Hrob Hno).
  - by apply parse_sitemap_fails.
  - intros url r xml before after Hget Hst Hp Htag Hloc Hbad'.
    rewrite (parse_sitemap_index _ url r xml (before ++ bad :: after)); try done.
    rewrite flat_map_app. cbn [flat_map].
    by rewrite (parse_sitemap_fails _ _ Hbad').
  - intros before after Hlist. unfold All.sitemap_urls. rewrite Hlist.
    rewrite flat_map_app. cbn [flat_map].
    by rewrite (parse_sitemap_fails _ _ Hbad).
Qed.

End sitemaps.

(** ** The loop of [crawl] *)

Section crawler_loop.
Context `{UJ : UrlJoin} `{RQ : Requests}.
Variables (max_pages max_depth : Z).

Local Abbreviation cvisit := (Crawler.visit max_depth).
Local Abbreviation loop := (Crawler.loop max_pages max_depth).

Lemma fetched_downloads (l : list string) : fetched (map Download l) = [].
Proof. induction l as [|u l IH]; [done|]. simpl. apply IH. Qed.

Lemma scrape_page_downloads (v : gset string) (url domain : string) :
  fetched (snd (Crawler.scrape_page v url domain)) = [].
Proof.
  unfold Crawler.scrape_page. destruct (requests_get url) as [r|]; [|done].
  destruct (negb _); [done|]. destruct (Crawler.title_of _); [|done].
  apply fetched_downloads.
Qed.

(** What an iteration does to the global set and to the log: nothing, or
    it adds [url], new to the set, and logs its fetch first. *)
Lemma cvisit_effect (domain url : string) (depth : Z) (st : crawl_state) :
  cvisit domain url depth st = st
  \/ ((url ∉ visited st)
      /\ visited (cvisit domain url depth st) = {[url]} ∪ visited st
      /\ fetched (log (cvisit domain url depth st)) = fetched (log st) ++ [url]).
Proof.
  unfold Crawler.visit.
  destruct (bool_decide (url ∈ visited st)) eqn:Hv; cbn [orb]; [by left|].
  apply bool_decide_eq_false in Hv.
  destruct (depth >? max_depth); [by left|]. right. split; [done|].
  pose proof (scrape_page_downloads ({[url]} ∪ visited st) url domain) as Hd.
  destruct (Crawler.scrape_page _ url domain) as [[page links] downloads].
  cbn [snd] in Hd.
  destruct page as [pd|]; cbn [visited log]; (split; [done|]);
    rewrite !fetched_app, Hd; simpl; by rewrite app_nil_r.
Qed.

Lemma crawl_inv_visit (domain url : string) (depth : Z) (st : crawl_state) :
  crawl_inv st -> crawl_inv (cvisit domain url depth st).
Proof.
  intros [Hnd Hin].
  destruct (cvisit_effect domain url depth st) as [->|(Hnew & Hv & Hl)]; [done|].
  split; rewrite Hl, ?Hv.
  - apply NoDup_app. split; [done|]. split; [|apply NoDup_singleton].
    intros u Hu ->%list_elem_of_singleton. by apply Hnew, Hin.
  - intros u [Hu| ->%list_elem_of_singleton]%elem_of_app; [|set_solver].
    apply Hin in Hu. set_solver.
Qed.

Lemma crawl_inv_loop (fuel : nat) (domain : string) (st : crawl_state) :
  crawl_inv st -> crawl_inv (loop fuel domain st).
Proof.
  revert st. induction fuel as [|fuel IH]; intros st Hinv; [done|].
  simpl. destruct (to_visit st) as [|[url depth] rest]; [done|].
  destruct (_ <? max_pages); [|done].
  by apply IH, crawl_inv_visit.
Qed.

Lemma visited_cvisit (domain url : string) (depth : Z) (st : crawl_state) :
  visited st ⊆ visited (cvisit domain url depth st).
Proof.
  destruct (cvisit_effect domain url depth st) as [->|(_ & -> & _)]; set_solver.
Qed.

Lemma visited_loop (fuel : nat) (domain : string) (st : crawl_state) :
  visited st ⊆ visited (loop fuel domain st).
Proof.
  revert st. induction fuel as [|fuel IH]; intros st; [done|].
  simpl. destruct (to_visit st) as [|[url depth] rest]; [done|].
  destruct (_ <? max_pages); [|done].
  etrans; [|apply IH]. etrans; [|apply visited_cvisit]. done.
Qed.

End crawler_loop.

(** [crawl] leaves its loop: with fuel for the budget of the queue, the
    queue is empty or the page limit is reached. *)
Section crawler_termination.
Context `{UJ : UrlJoin} `{RQ : Requests}.
Variables (max_pages max_depth : Z).

Lemma filter_filter_and {A : Type} (f g : A -> bool) (l : list A) :
  List.filter f (List.filter g l) = List.filter (fun x => g x && f x) l.
Proof.
  induction l as [|a l IH]; [done|]. simpl.
  destruct (g a); simpl; [|done]. destruct (f a); by rewrite IH.
Qed.

Lemma filter_none {A : Type} (l : list A) : List.filter (fun _ => false) l = [].
Proof. induction l; done. Qed.

(** The links [scrape_page] returns are a selection of [page_links]. *)
Lemma scrape_page_links (v : gset string) (url domain : string) :
  exists p, snd (fst (Crawler.scrape_page v url domain))
            = List.filter p (Crawler.page_links domain url).
Proof.
  unfold Crawler.scrape_page, Crawler.page_links.
  destruct (requests_get url) as [r|]; [|by exists (fun _ => false)].
  destruct (negb (status_code r =? 200)); [by exists (fun _ => false)|].
  destruct (Crawler.title_of (BeautifulSoup (text r))) as [title|].
  - exists (fun link => negb (bool_decide (link ∈ v))). cbn [fst snd].
    by rewrite filter_filter_and.
  - exists (fun _ => false). cbn [fst snd]. by rewrite filter_none.
Qed.

Lemma crawl_budget_step (domain url : string) (depth : Z) (st : crawl_state) :
  (budget (Crawler.page_links domain) max_depth
     (to_visit (Crawler.visit max_depth domain url depth st))
   < entry_cost (Crawler.page_links domain) max_depth (url, depth)
     + budget (Crawler.page_links domain) max_depth (to_visit st))%nat.
Proof.
  pose proof (cost_pos (Crawler.page_links domain)
                (Z.to_nat (max_depth + 1 - depth)) url) as Hpos.
  unfold Crawler.visit.
  destruct (bool_decide (url ∈ visited st) || (depth >? max_depth)) eqn:Hskip;
    [unfold entry_cost; cbn [fst snd]; lia|].
  apply orb_false_iff in Hskip as [_ Hd].
  assert (Hd' : depth <= max_depth)
    by (destruct (Z.gtb_spec depth max_depth); [done|lia]).
  destruct (scrape_page_links ({[url]} ∪ visited st) url domain) as [p Hp].
  destruct (Crawler.scrape_page _ url domain) as [[page links] downloads].
  cbn [fst snd] in Hp. subst links.
  destruct page as [pd|]; cbn [to_visit];
    [|unfold entry_cost; cbn [fst snd]; lia].
  rewrite budget_app, filter_filter_and.
  match goal with
  | |- context [List.filter ?f (Crawler.page_links domain url)] =>
      pose proof (budget_visit (Crawler.page_links domain) max_depth depth url f Hd')
  end.
  lia.
Qed.

Lemma crawl_loop_completes (fuel : nat) (domain : string) (st : crawl_state) :
  (budget (Crawler.page_links domain) max_depth (to_visit st) <= fuel)%nat ->
  to_visit (Crawler.loop max_pages max_depth fuel domain st) = []
  \/ max_pages
     <= Z.of_nat (length (results (Crawler.loop max_pages max_depth fuel domain st))).
Proof.
  revert st. induction fuel as [|fuel IH]; intros st Hb.
  - left. simpl. apply (budget_zero (Crawler.page_links domain) max_depth). lia.
  - simpl. destruct (to_visit st) as [|[url depth] rest] eqn:Hq; [by left|].
    destruct (Z.ltb_spec (Z.of_nat (length (results st))) max_pages) as [Hlt|Hge];
      [|by right].
    apply IH.
    pose proof (crawl_budget_step domain url depth
                  (mkCrawl rest (visited st) (results st) (log st))) as Hs.
    cbn [to_visit] in Hs. unfold budget in Hb. simpl in Hb.
    unfold budget at 2 in Hs. lia.
Qed.

Lemma crawl_run_completes (visited0 : gset string) (start_url : string) :
  to_visit (Crawler.run max_pages max_depth visited0 start_url) = []
  \/ max_pages
     <= Z.of_nat (length (results (Crawler.run max_pages max_depth visited0 start_url))).
Proof. unfold Crawler.run. by apply crawl_loop_completes. Qed.

End crawler_termination.

(** ** The loop of [discover_over_cdp] *)

Section cdp_loop.
Context `{RE : Regex} `{UJ : UrlJoin} `{BR : Browser}.
Variables (base : string) (allow : list (Pattern * string))
          (block : list Pattern) (depth : Z) (throttle : Q).

Lemma cdp_seen_visit (url : string) (d : Z) (st : state) :
  seen st ⊆ seen (Cdp.visit base allow block depth throttle url d st).
Proof.
  unfold Cdp.visit. destruct (_ || _); [done|].
  destruct (page_goto url); cbn [seen]; set_solver.
Qed.

Lemma cdp_seen_bfs (fuel : nat) (st : state) :
  seen st ⊆ seen (Cdp.bfs base allow block depth throttle fuel st).
Proof.
  revert st. induction fuel as [|fuel IH]; intros st; [done|].
  simpl. destruct (q st) as [|[url d] rest]; [done|].
  etrans; [|apply IH]. etrans; [|apply cdp_seen_visit]. done.
Qed.

Lemma cdp_budget_step (url : string) (d : Z) (st : state) :
  (budget (Cdp.page_links base) depth
     (q (Cdp.visit base allow block depth throttle url d st))
   < entry_cost (Cdp.page_links base) depth (url, d)
     + budget (Cdp.page_links base) depth (q st))%nat.
Proof.
  pose proof (cost_pos (Cdp.page_links base) (Z.to_nat (depth + 1 - d)) url) as Hpos.
  unfold Cdp.visit.
  destruct (bool_decide (url ∈ seen st) || (d >? depth)) eqn:Hskip;
    [unfold entry_cost; cbn [fst snd]; lia|].
  apply orb_false_iff in Hskip as [_ Hd].
  assert (Hd' : d <= depth) by (destruct (Z.gtb_spec d depth); [done|lia]).
  destruct (page_goto url) as [pg|] eqn:Hgo;
    [|cbn [q]; unfold entry_cost; cbn [fst snd]; lia].
  cbn [q]. rewrite budget_app.
  assert (Hl : Cdp.page_links base url = Cdp.next_links base pg).
  { unfold Cdp.page_links. by rewrite Hgo. }
  rewrite <- Hl.
  match goal with
  | |- context [List.filter ?p (Cdp.page_links base url)] =>
      pose proof (budget_visit (Cdp.page_links base) depth d url p Hd')
  end.
  lia.
Qed.

Lemma cdp_bfs_completes (fuel : nat) (st : state) :
  (budget (Cdp.page_links base) depth (q st) <= fuel)%nat ->
  q (Cdp.bfs base allow block depth throttle fuel st) = [].
Proof.
  revert st. induction fuel as [|fuel IH]; intros st Hb.
  - simpl. apply (budget_zero (Cdp.page_links base) depth). lia.
  - simpl. destruct (q st) as [|[url d] rest] eqn:Hq; [done|].
    apply IH.
    pose proof (cdp_budget_step url d (mkState rest (seen st) (hits st) (trace st))) as Hs.
    cbn [q] in Hs. unfold budget in Hb. simpl in Hb. unfold budget at 2 in Hs. lia.
Qed.

(** [discover_over_cdp] returns as soon as the initial navigation succeeds,
    and then its loop has run to completion. *)
Lemma cdp_run_completes (seeds : list string) (pg : Page) :
  page_goto base = Some pg ->
  exists st, Cdp.run base allow block depth throttle seeds = Some st /\ q st = [].
Proof.
  intros Hgo. unfold Cdp.run. rewrite Hgo. eexists. split; [done|].
  by apply cdp_bfs_completes.
Qed.

End cdp_loop.

(** ** Properties of a whole run *)

Section runs.
Context `{RE : Regex} `{UJ : UrlJoin} `{ST : Site} `{BR : Browser} `{RQ : Requests}.
Variables (base : string) (allow : list (Pattern * string))
          (block : list Pattern) (max_depth : Z) (throttle : Q).

Lemma start_fetch_inv (limit : nat) (seeds : list string) :
  fetch_inv (All.start base allow block limit seeds).
Proof. split; cbn; [apply NoDup_nil_2|]. by intros u ?%elem_of_nil. Qed.

(** The loop of [discover_all] runs to completion. *)
Lemma run_completes (limit : nat) (seeds : list string) :
  q (All.run base allow block max_depth throttle limit seeds) = [].
Proof. unfold All.run. by apply bfs_completes. Qed.

(** C1: in [discover_all] and in [crawl], at every point of the loop the
    URLs fetched so far are pairwise distinct and all of them are in the
    visited set, and an entry whose URL is in the visited set is dropped
    without a fetch; so no URL is fetched twice in a run, however many
    pages link to it. *)
Theorem fetch_at_most_once (limit fuel : nat) (seeds : list string)
    (max_pages crawl_depth : Z) (visited0 : gset string) (start_url : string)
    (st : state) (cst : crawl_state) (url : string) (d : Z) :
  NoDup (fetched (trace (All.bfs base allow block max_depth throttle fuel
                           (All.start base allow block limit seeds))))
  /\ NoDup (fetched (trace (All.run base allow block max_depth throttle limit seeds)))
  /\ q (All.run base allow block max_depth throttle limit seeds) = []
  /\ All.visit base allow block max_depth throttle url d
       (mkState (q st) ({[url]} ∪ seen st) (hits st) (trace st))
     = mkState (q st) ({[url]} ∪ seen st) (hits st) (trace st)
  /\ NoDup (fetched (log (Crawler.loop max_pages crawl_depth fuel
                           (netloc (urlsplit start_url))
                           (mkCrawl [(start_url, 0)] visited0 [] []))))
  /\ NoDup (fetched (log (Crawler.run max_pages crawl_depth visited0 start_url)))
  /\ Crawler.visit crawl_depth (netloc (urlsplit start_url)) url d
       (mkCrawl (to_visit cst) ({[url]} ∪ visited cst) (results cst) (log cst))
     = mkCrawl (to_visit cst) ({[url]} ∪ visited cst) (results cst) (log cst).
Proof.
  assert (Hc : forall f, crawl_inv (Crawler.loop max_pages crawl_depth f
                           (netloc (urlsplit start_url))
                           (mkCrawl [(start_url, 0)] visited0 [] []))).
  { intros f. apply crawl_inv_loop. split; cbn; [apply NoDup_nil_2|].
    by intros u ?%elem_of_nil. }
  split; [|split; [|split; [|split; [|split; [|split]]]]].
  - by apply fetch_inv_bfs, start_fetch_inv.
  - unfold All.run. by apply fetch_inv_bfs, start_fetch_inv.
  - apply run_completes.
  - unfold All.visit. cbn [seen].
    rewrite bool_decide_eq_true_2 by set_solver. done.
  - apply Hc.
  - unfold Crawler.run. apply Hc.
  - unfold Crawler.visit. cbn [visited].
    rewrite bool_decide_eq_true_2 by set_solver. done.
Qed.

(** C6, as the code has it: every key of the hit map returned by
    [discover_all] is either a same-domain sitemap URL recorded as listed
    or the canonical URL computed for a fetched page; it is in scope and
    mapped to the entity the classifier gives it; no key occurs twice. *)
Theorem hit_map_keys (limit : nat) (seeds : list string)
    (k : string) (e : option string) :
  All.discover_all base allow block max_depth throttle limit seeds !! k = Some e ->
  in_scope k allow block = (true, e)
  /\ (from_sitemap base allow block (All.sitemap_urls base limit) k e
      \/ from_page allow block
           (trace (All.run base allow block max_depth throttle limit seeds)) k e)
  /\ NoDup (map fst (map_to_list
               (All.discover_all base allow block max_depth throttle limit seeds))).
Proof.
  intros Hk. unfold All.discover_all, All.run in *.
  assert (Hinv : hits_inv base allow block (All.sitemap_urls base limit)
                   (All.start base allow block limit seeds)).
  { intros k' e' Hk'. left. by apply sitemap_hits_lookup. }
  apply (hits_inv_bfs base allow block max_depth throttle _
           (budget (All.page_links base) max_depth
                   (q (All.start base allow block limit seeds)))) in Hinv.
  split; [|split; [by apply Hinv|apply NoDup_fst_map_to_list]].
  destruct (Hinv k e Hk) as [(_ & _ & Hs)|(Hs & _)]; done.
Qed.

(** C9, as the code has it: the discovery loops create their visited set
    empty on every call and only ever add to it; [crawl] works on the
    module-level set, which only grows as well but is never reset, so a
    call starts from what earlier calls in the process left behind. *)
Theorem visited_set_scope (limit fuel : nat) (seeds : list string)
    (st : state) (max_pages crawl_depth : Z) (domain : string)
    (cst : crawl_state) (visited0 : gset string) (start1 start2 : string) :
  seen (All.start base allow block limit seeds) = ∅
  /\ seen st ⊆ seen (All.bfs base allow block max_depth throttle fuel st)
  /\ seen (Cdp.start base seeds) = ∅
  /\ seen st ⊆ seen (Cdp.bfs base allow block max_depth throttle fuel st)
  /\ visited cst ⊆ visited (Crawler.loop max_pages crawl_depth fuel domain cst)
  /\ visited0 ⊆ snd (Crawler.crawl max_pages crawl_depth visited0 start1)
  /\ Crawler.crawl_twice max_pages crawl_depth start1 start2
     = (fst (Crawler.crawl max_pages crawl_depth ∅ start1),
        fst (Crawler.crawl max_pages crawl_depth
               (snd (Crawler.crawl max_pages crawl_depth ∅ start1)) start2)).
Proof.
  split; [done|]. split; [apply seen_bfs|]. split; [done|].
  split; [apply cdp_seen_bfs|]. split; [apply visited_loop|].
  split; [|done].
  unfold Crawler.crawl, Crawler.run. cbn [snd].
  etrans; [|apply visited_loop]. done.
Qed.

End runs.

(** ** The example sites, run *)

Section examples.
Import Example.
#[local] Existing Instance literal_re.
#[local] Existing Instance simple_join.

Example read_workbook :
  read_patterns workbook = Some (["https://example.com/"], allow, block).
Proof. reflexivity. Qed.

(** The scenario of the specification: the home page links to a plan and
    to an about page; only the plan is a hit. *)
Example shop_hits :
  All.discover_all (ST := shop) base allow block 2 0.75 1000
    ["https://example.com/"]
  = {[ "https://example.com/plans/unlimited" := Some "plan" ]}.
Proof. vm_compute. reflexivity. Qed.

Example shop_trace :
  trace (All.run (ST := shop) base allow block 2 0.75 1000
           ["https://example.com/"])
  = [Fetch "https://example.com/"; Sleep 0.75;
     Fetch "https://example.com/plans/unlimited"; Sleep 0.75;
     Fetch "https://example.com/about"; Sleep 0.75].
Proof. vm_compute. reflexivity. Qed.

Lemma literal_re_insensitive : re_I_insensitive (RE := literal_re).
Proof.
  intros p s t Hi Hl. cbn. unfold literal_search. by rewrite Hi, Hl.
Qed.

Lemma in_scope_exclude_veto_witness :
  in_scope "https://example.com/plans/admin-offer" allow
           [re_compile "/internal" true; re_compile "/admin" true]
  = (false, None)
  /\ in_scope "https://example.com/plans/admin-offer" (rev allow)
              [re_compile "/admin" true; re_compile "/internal" true]
     = (false, None).
Proof.
  apply in_scope_exclude_veto.
  - exists (re_compile "/admin" true). split; [right; left|reflexivity].
  - apply perm_swap.
Defined.

Lemma in_scope_first_include_witness :
  in_scope "https://example.com/Devices/Phone" allow block
  = (true, Some "device")
  /\ in_scope ("https://example.com/Devices/Phone" +:+ "?color=red#specs")
              allow block
     = in_scope "https://example.com/Devices/Phone" allow block
  /\ in_scope "https://example.com/DEVICES/phone" allow block
     = in_scope "https://example.com/Devices/Phone" allow block.
Proof.
  assert (Hno : forall b, b ∈ block ->
            re_search b (path (urlsplit "https://example.com/Devices/Phone"))
            = false).
  { intros b ->%list_elem_of_singleton. reflexivity. }
  destruct (in_scope_first_include "https://example.com/Devices/Phone"
              allow block Hno) as (T1 & _ & T3 & T4).
  split; [|split].
  - apply (T1 [(re_compile "^/plans/" true, "plan")]
              (re_compile "^/devices/" true) "device" []);
      [reflexivity| |reflexivity].
    intros p h [= -> ->]%list_elem_of_singleton. reflexivity.
  - apply T3; reflexivity.
  - destruct (T4 workbook ["https://example.com/"] eq_refl) as (_ & _ & Tc).
    apply Tc; [apply literal_re_insensitive|reflexivity].
Defined.

Lemma hit_map_keys_witness :
  in_scope "https://example.com/plans/a?ref=nav" allow block
  = (true, Some "plan").
Proof.
  apply (hit_map_keys (ST := aliased) base allow block 2 0.75 1000
           ["https://example.com/plans/a?ref=nav"]
           "https://example.com/plans/a?ref=nav" (Some "plan")).
  vm_compute. reflexivity.
Defined.

(** C6 as stated fails: the sitemap lists a plan under an address with a
    query string, the page declares another canonical address, and the
    hit map holds both. *)
Lemma hit_map_alias_counterexample :
  ~ keys_are_canonical (ST := aliased)
      (All.discover_all (ST := aliased) base allow block 2 0.75 1000
         ["https://example.com/plans/a?ref=nav"])
  /\ ~ one_key_per_page (ST := aliased)
      (All.discover_all (ST := aliased) base allow block 2 0.75 1000
         ["https://example.com/plans/a?ref=nav"]).
Proof.
  assert (H1 : is_Some (All.discover_all (ST := aliased) base allow block 2
                          0.75 1000 ["https://example.com/plans/a?ref=nav"]
                        !! "https://example.com/plans/a?ref=nav")).
  { exists (Some "plan"). vm_compute. reflexivity. }
  assert (H2 : is_Some (All.discover_all (ST := aliased) base allow block 2
                          0.75 1000 ["https://example.com/plans/a?ref=nav"]
                        !! "https://example.com/plans/a")).
  { exists (Some "plan"). vm_compute. reflexivity. }
  split.
  - intros Hc. specialize (Hc _ H1). vm_compute in Hc. discriminate Hc.
  - intros Hc.
    specialize (Hc _ _ "https://example.com/plans/a" H1 H2 eq_refl eq_refl).
    discriminate Hc.
Qed.


Lemma sitemap_failure_is_local_witness :
  All.parse_sitemap (ST := mapped) 2 "https://example.com/sitemap_mixed.xml"
  = ["https://example.com/plans/unlimited"; "https://example.com/devices/phone";
     "https://example.com/about"].
Proof.
  assert (Hbad : sitemap_fails (ST := mapped) "https://example.com/broken.xml").
  { right. exists (mkResponse 500 "https://example.com/broken.xml" "" "").
    split; [reflexivity|]. left. discriminate. }
  apply (proj1 (proj2 (proj2
           (sitemap_failure_is_local (ST := mapped) base 1
              "https://example.com/broken.xml" Hbad)))
         "https://example.com/sitemap_mixed.xml"
         (ok "https://example.com/sitemap_mixed.xml" "mixed")
         (mkXmlDoc "sitemapindex"
            [Some "https://example.com/urls.xml";
             Some "https://example.com/broken.xml";
             Some "https://example.com/more.xml"] [])
         ["https://example.com/urls.xml"] ["https://example.com/more.xml"]);
    try reflexivity.
  exact Hbad.
Defined.

(** C9 as stated fails for [crawl]: a second call in the same process
    finds the start page in the global set and returns nothing. *)
Lemma crawl_second_run_counterexample :
  ~ (forall start,
       snd (Crawler.crawl_twice (RQ := blog) 20 2 start start)
       = fst (Crawler.crawl (RQ := blog) 20 2 ∅ start)).
Proof.
  intros Hc. specialize (Hc "https://example.com/").
  vm_compute in Hc. discriminate Hc.
Qed.

Example crawl_twice_blog :
  snd (Crawler.crawl_twice (RQ := blog) 20 2
         "https://example.com/" "https://example.com/") = []
  /\ length (fst (Crawler.crawl_twice (RQ := blog) 20 2
                    "https://example.com/" "https://example.com/")) = 2%nat.
Proof. split; vm_compute; reflexivity. Qed.

(** C4 fails on the code: after a fetch that answers 404 (in the browser
    variant: a navigation that raises) the next fetch follows at once;
    [crawl] sleeps after a failed fetch as well as after a good one. *)
Theorem no_delay_after_failed_fetch :
  trace (All.run (ST := flaky) base allow block 2 0.75 1000
           ["https://example.com/gone"; "https://example.com/plans/a"])
  = [Fetch "https://example.com/gone"; Fetch "https://example.com/plans/a";
     Sleep 0.75]
  /\ polite (trace (All.run (ST := flaky) base allow block 2 0.75 1000
                      ["https://example.com/gone"; "https://example.com/plans/a"]))
     = false
  /\ option_map trace
       (Cdp.run (BR := flaky_browser) base allow block 3 0.7
          ["https://example.com/gone"; "https://example.com/plans/a"])
     = Some [Open "https://example.com"; Fetch "https://example.com/gone";
             Fetch "https://example.com/plans/a"; Sleep 0.7]
  /\ log (Crawler.run (RQ := blog) 20 2 ∅ "https://example.com/missing")
     = [Fetch "https://example.com/missing"; Sleep 1].
Proof. repeat split; vm_compute; reflexivity. Qed.

(** C5 fails on [discover_all]: for a page without canonical link it
    classifies and records the requested URL, not the one served after the
    redirect; the browser variant uses the served one. *)
Theorem discover_all_keeps_requested_url :
  cli_get (Site := moved) "https://example.com/old-plan"
  = Some (mkResponse 200 "https://example.com/plans/new" "new" "new")
  /\ page_canonical (ST := moved) "https://example.com/old-plan"
     = Some "https://example.com/old-plan"
  /\ in_scope "https://example.com/old-plan" allow block = (false, None)
  /\ in_scope "https://example.com/plans/new" allow block = (true, Some "plan")
  /\ All.discover_all (ST := moved) base allow block 2 0.75 1000
       ["https://example.com/old-plan"] = ∅
  /\ Cdp.discover_over_cdp (BR := moved_browser) base allow block 3 0.7
       ["https://example.com/old-plan"]
     = Some {[ "https://example.com/plans/new" := Some "plan" ]}.
Proof. repeat split; vm_compute; reflexivity. Qed.

End examples.

(** * Further properties *)

(** ** Loading the rules *)

Section read_patterns_facts.
Context `{RE : Regex}.

Lemma compile_allow_ok (rows : list (string * string)) :
  Forall (fun row => re_valid row.1 = true) rows ->
  compile_allow rows
  = Some (map (fun row => (re_compile row.1 true, row.2)) rows).
Proof.
  induction 1 as [|[p h] rows Hp _ IH]; [done|].
  simpl in *. unfold compile_I. by rewrite Hp, IH.
Qed.

Lemma compile_block_ok (col : list string) :
  Forall (fun p => re_valid p = true) col ->
  compile_block col = Some (map (fun p => re_compile p true) col).
Proof.
  induction 1 as [|p col Hp _ IH]; [done|].
  simpl. unfold compile_I. by rewrite Hp, IH.
Qed.

Lemma compile_allow_bad (rows : list (string * string)) :
  Exists (fun row => re_valid row.1 = false) rows -> compile_allow rows = None.
Proof.
  induction 1 as [[p h] rows Hp|[p h] rows _ IH]; simpl in *; unfold compile_I.
  - by rewrite Hp.
  - rewrite IH. by destruct (re_valid p).
Qed.

Lemma compile_block_bad (col : list string) :
  Exists (fun p => re_valid p = false) col -> compile_block col = None.
Proof.
  induction 1 as [p col Hp|p col _ IH]; simpl; unfold compile_I.
  - by rewrite Hp.
  - rewrite IH. by destruct (re_valid p).
Qed.


(** X2: a verdict of [in_scope] is either in scope with the hint of an
    include rule that matches the path, no exclude rule matching it, or out
    of scope with no entity, because an exclude rule matches or no include
    rule does. *)
Theorem in_scope_sound (url : string) (allow : list (Pattern * string))
    (block : list Pattern) (ok : bool) (e : option string) :
  in_scope url allow block = (ok, e) ->
  if ok then
    exists pat hint,
      e = Some hint /\ (pat, hint) ∈ allow
      /\ re_search pat (path (urlsplit url)) = true
      /\ forall b, b ∈ block -> re_search b (path (urlsplit url)) = false
  else
    e = None
    /\ ((exists b, b ∈ block /\ re_search b (path (urlsplit url)) = true)
        \/ forall p h, (p, h) ∈ allow ->
             re_search p (path (urlsplit url)) = false).
Proof.
  unfold in_scope. cbv zeta.
  destruct (existsb _ block) eqn:Hb.
  - intros [= <- <-]. split; [done|]. left. by apply existsb_block.
  - assert (Hno : forall b, b ∈ block ->
                    re_search b (path (urlsplit url)) = false).
    { intros b Hin. apply not_true_is_false. intros Hm.
      assert (existsb (fun b => re_search b (path (urlsplit url))) block = true)
        as Ht by (apply existsb_block; eauto).
      congruence. }
    clear Hb. induction allow as [|[p h] allow IH]; simpl.
    + intros [= <- <-]. split; [done|]. right. by intros p h ?%elem_of_nil.
    + destruct (re_search p (path (urlsplit url))) eqn:Hp.
      * intros [= <- <-]. exists p, h. repeat split; [by left|done..].
      * intros Hs. specialize (IH Hs). destruct ok.
        -- destruct IH as (pat & hint & -> & Hin & Hm & Hn).
           exists pat, hint. repeat split; [by right|done..].
        -- destruct IH as [-> [Hx|Hall]]; (split; [done|]); [by left|right].
           intros p' h' [[= -> ->]|Hin]%elem_of_cons; [done|]. by apply (Hall p' h').
Qed.

End read_patterns_facts.

(** ** Domain scoping and fragments *)

Lemma endswith_refl (s : string) : Str.endswith s s = true.
Proof. apply endswith_spec. by exists "". Qed.

Lemma endswith_trans (a b c : string) :
  Str.endswith b a = true -> Str.endswith c b = true -> Str.endswith c a = true.
Proof.
  intros [p ->]%endswith_spec [p' ->]%endswith_spec.
  apply endswith_spec. exists (p' +:+ p). by rewrite app_assoc_s.
Qed.

Lemma endswith_of_empty (suf : string) :
  Str.endswith "" suf = true <-> suf = "".
Proof.
  rewrite endswith_nil, orb_false_r. split.
  - by intros <-%String.eqb_eq.
  - by intros ->.
Qed.

(** X3: [same_domain] is reflexive and transitive: a base is in its own
    domain, and whatever is in the domain of a URL in the domain of the
    base is in the domain of the base. *)
Theorem same_domain_preorder (a b c : string) :
  same_domain a a = true
  /\ (same_domain a b = true -> same_domain b c = true ->
      same_domain a c = true).
Proof.
  split; [apply endswith_refl|]. unfold same_domain. apply endswith_trans.
Qed.

(** X4: a URL without network location (a relative reference, a [mailto:]
    or [javascript:] link) is in-domain exactly when the base has no
    network location either. *)
Theorem same_domain_without_netloc (base url : string) :
  netloc (urlsplit url) = "" ->
  (same_domain base url = true <-> netloc (urlsplit base) = "").
Proof.
  intros E. unfold same_domain. rewrite E. apply endswith_of_empty.
Qed.

Lemma is_hash_eqb (a : ascii) : Url.is_hash a = Ascii.eqb "#" a.
Proof. by destruct a as [[] [] [] [] [] [] [] []]. Qed.

Lemma contains_lacks_hash (s : string) :
  Str.contains "#" s = negb (lacks Url.is_hash s).
Proof.
  unfold lacks. induction s as [|a s IH]; [done|].
  rewrite forallb_cons. simpl. rewrite IH, is_hash_eqb, Ascii.eqb_sym.
  by destruct (Ascii.eqb "#" a).
Qed.

Lemma lacks_before (p : ascii -> bool) (s : string) :
  lacks p (before p s) = true.
Proof.
  unfold lacks, before. induction s as [|a s IH]; [done|].
  rewrite break_at_cons. destruct (p a) eqn:Ha; [done|].
  cbn [fst]. by rewrite forallb_cons, Ha, IH.
Qed.

Lemma before_snd (p : ascii -> bool) (s : string) :
  s = before p s +:+ snd (Str.break_at p s).
Proof.
  unfold before. induction s as [|a s IH]; [done|].
  rewrite break_at_cons. destruct (p a); [done|].
  cbn [fst snd]. by rewrite app_cons_s, <- IH.
Qed.

Lemma break_at_ext (p p' : ascii -> bool) (s : string) :
  (forall a, p a = p' a) -> Str.break_at p s = Str.break_at p' s.
Proof.
  intros E. induction s as [|a s IH]; [done|].
  by rewrite !break_at_cons, E, IH.
Qed.

Lemma strip_fragment_before (nxt : string) :
  strip_fragment nxt = before Url.is_hash nxt.
Proof.
  unfold strip_fragment, Str.split1.
  rewrite <- (break_at_ext Url.is_hash (Ascii.eqb "#") nxt is_hash_eqb).
  rewrite contains_lacks_hash. unfold before.
  destruct (lacks Url.is_hash nxt) eqn:L; cbn [negb].
  - by rewrite (break_at_lacks _ _ L).
  - by destruct (Str.break_at Url.is_hash nxt) as [l [|c r]].
Qed.

Lemma urlsplit_fragment (u : string) :
  fragment (urlsplit u)
  = snd (Url.split_off Url.is_hash
      (snd (Url.split_netloc (snd (Url.split_scheme
        (Str.remove Url.is_unsafe (Url.lstrip_c0 u))))))).
Proof.
  unfold urlsplit, Url.urlsplit.
  destruct (Url.split_scheme _) as [sch u1]. cbn [snd].
  destruct (Url.split_netloc u1) as [nl u2]. cbn [snd].
  destruct (Url.split_off Url.is_hash u2) as [u3 frag]. cbn [snd].
  by destruct (Url.split_off Url.is_qmark u3) as [u4 qry].
Qed.

Lemma urlsplit_no_fragment (u : string) :
  lacks Url.is_hash u = true -> fragment (urlsplit u) = "".
Proof.
  intros L. rewrite urlsplit_fragment.
  set (u3 := snd (Url.split_netloc (snd (Url.split_scheme
                (Str.remove Url.is_unsafe (Url.lstrip_c0 u)))))).
  assert (L3 : lacks Url.is_hash u3 = true).
  { by apply split_netloc_forallb, split_scheme_forallb, forallb_remove,
      forallb_lstrip_c0. }
  unfold Url.split_off. by rewrite (break_at_lacks _ _ L3).
Qed.

(** X5: dropping the fragment leaves a string without [#] that is the
    input itself or the input up to its first [#]; doing it twice changes
    nothing more, and [urlsplit] finds no fragment in the result. *)
Theorem strip_fragment_spec (nxt : string) :
  Str.contains "#" (strip_fragment nxt) = false
  /\ (strip_fragment nxt = nxt
      \/ exists frag, nxt = strip_fragment nxt +:+ String "#" frag)
  /\ strip_fragment (strip_fragment nxt) = strip_fragment nxt
  /\ fragment (urlsplit (strip_fragment nxt)) = "".
Proof.
  rewrite !strip_fragment_before.
  pose proof (lacks_before Url.is_hash nxt) as L.
  split; [by rewrite contains_lacks_hash, L|].
  split; [|split].
  - destruct (lacks Url.is_hash nxt) eqn:Ln.
    + left. unfold before. by rewrite (break_at_lacks _ _ Ln).
    + right. destruct (break_at_hit _ _ Ln) as (c & r & Hr & Hc).
      exists r. rewrite (before_snd Url.is_hash nxt) at 1. rewrite Hr.
      rewrite is_hash_eqb in Hc. by apply Ascii.eqb_eq in Hc as <-.
  - unfold before at 1. by rewrite (break_at_lacks _ _ L).
  - by apply urlsplit_no_fragment.
Qed.

(** ** More about the loop of [discover_all] *)

Lemma strip_fragment_no_hash (nxt : string) :
  Str.contains "#" (strip_fragment nxt) = false.
Proof.
  by rewrite strip_fragment_before, contains_lacks_hash, lacks_before.
Qed.

Lemma app_eq_snoc {A : Type} (l1 l2 f : list A) (u x : A) :
  l1 ++ u :: l2 = f ++ [x] ->
  (l2 = [] /\ u = x /\ l1 = f)
  \/ exists l2', l2 = l2' ++ [x] /\ f = l1 ++ u :: l2'.
Proof.
  destruct l2 as [|y l2 _] using rev_ind.
  - intros E. change (l1 ++ [u] = f ++ [x]) in E.
    apply app_inj_tail in E as [-> ->]. by left.
  - intros E. right. exists l2.
    rewrite app_comm_cons, app_assoc in E.
    apply app_inj_tail in E as [<- ->]. done.
Qed.

Section all_more.
Context `{RE : Regex} `{UJ : UrlJoin} `{ST : Site}.
Variables (base : string) (allow : list (Pattern * string))
          (block : list Pattern) (max_depth : Z) (throttle : Q).

Local Abbreviation visit := (All.visit base allow block max_depth throttle).
Local Abbreviation bfs := (All.bfs base allow block max_depth throttle).
Local Abbreviation outcome :=
  (visit_outcome_visit base allow block max_depth throttle).

(** A property kept by every iteration holds throughout the loop. *)
Lemma bfs_invariant (P : state -> Prop) :
  (forall st url d rest,
      q st = (url, d) :: rest -> P st ->
      P (visit url d (mkState rest (seen st) (hits st) (trace st)))) ->
  forall fuel st, P st -> P (bfs fuel st).
Proof.
  intros Hstep fuel. induction fuel as [|fuel IH]; intros st HP; [done|].
  simpl. destruct (q st) as [|[url d] rest] eqn:Hq; [done|].
  by apply IH, Hstep.
Qed.

Lemma next_links_spec (can : string) (doc : HtmlDoc) (nxt : string) :
  nxt ∈ All.next_links base can doc ->
  same_domain base nxt = true /\ Str.contains "#" nxt = false.
Proof.
  unfold All.next_links. intros Hin%list_elem_of_In.
  apply filter_In in Hin as [Hin Hd]. split; [done|].
  apply in_map_iff in Hin as (href & <- & _). apply strip_fragment_no_hash.
Qed.

Lemma kids_spec (can : string) (doc : HtmlDoc) (p : string -> bool)
    (d : Z) (u : string) (du : Z) :
  (u, du) ∈ map (fun nxt => (nxt, d + 1))
              (List.filter p (All.next_links base can doc)) ->
  du = d + 1 /\ same_domain base u = true /\ Str.contains "#" u = false.
Proof.
  intros Hin%list_elem_of_In. apply in_map_iff in Hin as (nxt & [= <- <-] & Hin).
  apply filter_In in Hin as [Hin _].
  split; [done|]. apply (next_links_spec can doc). by apply list_elem_of_In.
Qed.

(** Every queue entry and every fetched URL is in-domain and is a seed or
    free of [#]. *)
Lemma scope_invariant (seeds : list string) (fuel : nat) (st : state) :
  let good u := same_domain base u = true
                /\ (u ∈ seeds \/ Str.contains "#" u = false) in
  (forall u d, (u, d) ∈ q st -> good u) ->
  (forall u, u ∈ fetched (trace st) -> good u) ->
  (forall u d, (u, d) ∈ q (bfs fuel st) -> good u)
  /\ (forall u, u ∈ fetched (trace (bfs fuel st)) -> good u).
Proof.
  intros good Hq Ht.
  apply (bfs_invariant (fun st =>
           (forall u d, (u, d) ∈ q st -> good u)
           /\ (forall u, u ∈ fetched (trace st) -> good u))); [|done].
  clear st Hq Ht. intros st url d rest Hq [Hqs Hts].
  assert (Hurl : good url) by (apply (Hqs url d); rewrite Hq; by left).
  assert (Hrest : forall u du, (u, du) ∈ rest -> good u).
  { intros u du Hin. apply (Hqs u du). rewrite Hq. by right. }
  destruct (outcome url d (mkState rest (seen st) (hits st) (trace st)))
    as [| |r doc seen2]; cbn [q trace] in *.
  - done.
  - split; [done|]. rewrite fetched_app.
    intros u [Hu| ->%list_elem_of_singleton]%elem_of_app; auto.
  - split.
    + intros u du [Hin|Hin]%elem_of_app; [by apply (Hrest u du)|].
      apply kids_spec in Hin as (_ & Hd & Hf). split; auto.
    + rewrite !fetched_app, app_nil_r.
      intros u [Hu| ->%list_elem_of_singleton]%elem_of_app; auto.
Qed.

(** X6: [discover_all] only fetches URLs that pass [same_domain], and every
    fetched URL is a seed or carries no [#]: links are stripped of their
    fragment before they are queued, seeds are taken as given. *)
Theorem fetches_in_domain (limit : nat) (seeds : list string) (u : string) :
  u ∈ fetched (trace (All.run base allow block max_depth throttle limit seeds)) ->
  same_domain base u = true
  /\ (u ∈ seeds \/ Str.contains "#" u = false).
Proof.
  unfold All.run. apply scope_invariant.
  - unfold All.start, All.seed_queue. cbn [q].
    intros v d Hin%list_elem_of_In. apply in_map_iff in Hin as (s & [= <- <-] & Hin).
    apply filter_In in Hin as [Hin Hd]. split; [done|]. left.
    by apply list_elem_of_In.
  - by intros v ?%elem_of_nil.
Qed.

(** Seeds sit at depth 0, everything else deeper. *)
Lemma depth_invariant (seeds : list string) (fuel : nat) (st : state) :
  (forall u d, (u, d) ∈ q st -> 0 <= d /\ (d = 0 -> u ∈ seeds)) ->
  (max_depth <= 0 -> forall u, u ∈ fetched (trace st) -> u ∈ seeds) ->
  (forall u d, (u, d) ∈ q (bfs fuel st) -> 0 <= d /\ (d = 0 -> u ∈ seeds))
  /\ (max_depth <= 0 ->
      forall u, u ∈ fetched (trace (bfs fuel st)) -> u ∈ seeds).
Proof.
  intros Hq Ht.
  apply (bfs_invariant (fun st =>
           (forall u d, (u, d) ∈ q st -> 0 <= d /\ (d = 0 -> u ∈ seeds))
           /\ (max_depth <= 0 ->
               forall u, u ∈ fetched (trace st) -> u ∈ seeds))); [|done].
  clear st Hq Ht. intros st url d rest Hq [Hqs Hts].
  destruct (Hqs url d) as [Hd0 Hseed]; [rewrite Hq; by left|].
  assert (Hrest : forall u du, (u, du) ∈ rest ->
                    0 <= du /\ (du = 0 -> u ∈ seeds)).
  { intros u du Hin. apply (Hqs u du). rewrite Hq. by right. }
  assert (Hnew : forall tr, max_depth <= 0 -> d <= max_depth ->
            forall u, u ∈ fetched ((trace st ++ [Fetch url]) ++ tr) ->
                      fetched tr = [] -> u ∈ seeds).
  { intros tr Hm Hd u Hu Htr. rewrite !fetched_app, Htr, app_nil_r in Hu.
    apply elem_of_app in Hu as [Hu| ->%list_elem_of_singleton]; [by apply Hts|].
    apply Hseed. lia. }
  destruct (outcome url d (mkState rest (seen st) (hits st) (trace st)))
    as [| |r doc seen2]; cbn [q trace] in *.
  - done.
  - split; [done|]. intros Hm u Hu. apply (Hnew [] Hm); [done| |done].
    by rewrite app_nil_r.
  - split.
    + intros u du [Hin|Hin]%elem_of_app; [by apply (Hrest u du)|].
      apply kids_spec in Hin as (-> & _). lia.
    + intros Hm u Hu. by apply (Hnew [Sleep throttle] Hm).
Qed.

Lemma seed_queue_depth (seeds : list string) (u : string) (d : Z) :
  (u, d) ∈ All.seed_queue base seeds -> 0 <= d /\ (d = 0 -> u ∈ seeds).
Proof.
  unfold All.seed_queue. intros Hin%list_elem_of_In.
  apply in_map_iff in Hin as (s & [= <- <-] & Hin).
  apply filter_In in Hin as [Hin _]. split; [done|]. intros _.
  by apply list_elem_of_In.
Qed.

(** With a negative depth limit no entry is ever processed. *)
Lemma negative_depth_invariant (fuel : nat) (st : state) :
  max_depth < 0 ->
  (forall u d, (u, d) ∈ q st -> 0 <= d) ->
  trace (bfs fuel st) = trace st /\ hits (bfs fuel st) = hits st.
Proof.
  intros Hm Hq.
  apply (bfs_invariant (fun st' =>
           (forall u d, (u, d) ∈ q st' -> 0 <= d)
           /\ trace st' = trace st /\ hits st' = hits st)); [|done].
  clear Hq. intros st' url d rest Hq (Hqs & Htr & Hh).
  assert (Hd : 0 <= d) by (apply (Hqs url d); rewrite Hq; by left).
  unfold All.visit.
  replace (d >? max_depth) with true
    by (symmetry; apply Z.gtb_lt; lia).
  rewrite orb_true_r. cbn [q trace hits]. split; [|done].
  intros u du Hin. apply (Hqs u du). rewrite Hq. by right.
Qed.

(** X7: with [max_depth = 0] (or less) only seeds are fetched, no link
    found on a page ever is; with a negative [max_depth] nothing is fetched
    at all and the result is what the sitemaps gave. *)
Theorem depth_zero_fetches_seeds_only (limit : nat) (seeds : list string) :
  (max_depth <= 0 ->
   forall u,
     u ∈ fetched (trace (All.run base allow block max_depth throttle limit seeds)) ->
     u ∈ seeds)
  /\ (max_depth < 0 ->
      trace (All.run base allow block max_depth throttle limit seeds) = []
      /\ All.discover_all base allow block max_depth throttle limit seeds
         = All.sitemap_hits base allow block limit).
Proof.
  split.
  - unfold All.run. apply depth_invariant.
    + apply seed_queue_depth.
    + by intros _ v ?%elem_of_nil.
  - intros Hm. unfold All.discover_all, All.run.
    apply (negative_depth_invariant _ (All.start base allow block limit seeds) Hm).
    intros u d Hin. by apply (seed_queue_depth seeds u d).
Qed.

Lemma bfs_ordered_tail (d : Z) (ds : list Z) :
  bfs_ordered (d :: ds) -> bfs_ordered ds.
Proof.
  intros [Hs Hspan]. split; [by inv Hs|].
  intros a b Ha Hb. apply Hspan; by right.
Qed.

Lemma bfs_ordered_push (d : Z) (ds : list Z) (n : nat) :
  bfs_ordered (d :: ds) -> bfs_ordered (ds ++ replicate n (d + 1)).
Proof.
  intros [Hs Hspan].
  assert (Hlo : forall a, a ∈ ds -> d <= a).
  { apply StronglySorted_cons in Hs as [Hall _].
    intros a Ha. by apply (proj1 (Forall_forall _ _) Hall). }
  assert (Hhi : forall a, a ∈ ds -> a <= d + 1).
  { intros a Ha. apply Hspan; [by left|by right]. }
  split.
  - apply StronglySorted_app_2.
    + intros x1 x2 H1 [-> _]%elem_of_replicate. by apply Hhi.
    + by inv Hs.
    + induction n as [|n IH]; [constructor|]. simpl. constructor; [done|].
      apply Forall_forall. intros x [-> _]%elem_of_replicate. lia.
  - intros a b [Ha|[-> _]%elem_of_replicate]%elem_of_app
               [Hb|[-> _]%elem_of_replicate]%elem_of_app.
    + apply Hspan; by right.
    + specialize (Hlo a Ha). lia.
    + specialize (Hhi b Hb). lia.
    + lia.
Qed.

Lemma map_snd_kids (d : Z) (kids : list string) :
  map snd (map (fun nxt : string => (nxt, d + 1)) kids)
  = replicate (length kids) (d + 1).
Proof. induction kids as [|k kids IH]; [done|]. simpl. by rewrite IH. Qed.

(** X8: the queue is kept in breadth-first order: at every point of the
    loop the depths of the waiting entries never decrease from front to
    back and differ by at most one, so no entry is processed before an
    entry of smaller depth. *)
Theorem queue_breadth_first (limit fuel : nat) (seeds : list string) :
  bfs_ordered (map snd (q (bfs fuel (All.start base allow block limit seeds)))).
Proof.
  apply (bfs_invariant (fun st => bfs_ordered (map snd (q st)))).
  - intros st url d rest Hq Hord. rewrite Hq in Hord. cbn [map snd] in Hord.
    destruct (outcome url d (mkState rest (seen st) (hits st) (trace st)))
      as [| |r doc seen2]; cbn [q].
    + by apply (bfs_ordered_tail d).
    + by apply (bfs_ordered_tail d).
    + rewrite map_app, map_snd_kids. by apply bfs_ordered_push.
  - unfold All.start, All.seed_queue. cbn [q]. rewrite map_map. cbn [snd].
    generalize (List.filter (same_domain base) seeds). intros l. split.
    + induction l as [|s l IH]; simpl; constructor; [done|].
      apply Forall_forall. by intros x (y & -> & _)%list_elem_of_fmap.
    + intros a b (y & -> & _)%list_elem_of_fmap (z & -> & _)%list_elem_of_fmap.
      lia.
Qed.

End all_more.

(** ** Hits are kept *)

Section all_hits_more.
Context `{RE : Regex} `{UJ : UrlJoin} `{ST : Site}.
Variables (base : string) (allow : list (Pattern * string))
          (block : list Pattern) (max_depth : Z) (throttle : Q).

Local Abbreviation visit := (All.visit base allow block max_depth throttle).
Local Abbreviation bfs := (All.bfs base allow block max_depth throttle).
Local Abbreviation outcome :=
  (visit_outcome_visit base allow block max_depth throttle).

Lemma record_hit_new (u : string) (e : option string)
    (h : gmap string (option string)) :
  in_scope u allow block = (true, e) ->
  record_hit allow block u h !! u = Some e.
Proof. intros E. unfold record_hit. rewrite E. apply lookup_insert_eq. Qed.

Lemma record_hit_keeps (u k : string) (e : option string)
    (h : gmap string (option string)) :
  h !! k = Some e -> in_scope k allow block = (true, e) ->
  record_hit allow block u h !! k = Some e.
Proof.
  intros Hk Hs. unfold record_hit.
  destruct (in_scope u allow block) as [[|] ent] eqn:E; [|done].
  destruct (decide (u = k)) as [->|Hne].
  - rewrite lookup_insert_eq. congruence.
  - by rewrite lookup_insert_ne.
Qed.


Lemma record_hit_sound (u : string) (h : gmap string (option string)) :
  hits_sound_at allow block h ->
  hits_sound_at allow block (record_hit allow block u h).
Proof.
  intros Hs k e Hk. apply record_hit_lookup in Hk as [[-> ?]|?]; auto.
Qed.

Lemma record_sitemap_fold_sound (l : list string)
    (acc : gmap string (option string)) :
  hits_sound_at allow block acc ->
  hits_sound_at allow block (fold_left (All.record_sitemap_url base allow block) l acc).
Proof.
  revert acc. induction l as [|u l IH]; intros acc Hs; [done|].
  simpl. apply IH. unfold All.record_sitemap_url.
  destruct (same_domain base u); [by apply record_hit_sound|done].
Qed.

Lemma record_sitemap_fold_keeps (l : list string)
    (acc : gmap string (option string)) (k : string) (e : option string) :
  hits_sound_at allow block acc -> acc !! k = Some e ->
  fold_left (All.record_sitemap_url base allow block) l acc !! k = Some e.
Proof.
  revert acc. induction l as [|u l IH]; intros acc Hs Hk; [done|].
  simpl. unfold All.record_sitemap_url at 2.
  destruct (same_domain base u); [|by apply IH].
  apply IH; [by apply record_hit_sound|].
  apply record_hit_keeps; [done|by apply Hs].
Qed.

Lemma record_sitemap_fold_adds (l : list string)
    (acc : gmap string (option string)) (k : string) (e : option string) :
  hits_sound_at allow block acc -> k ∈ l -> same_domain base k = true ->
  in_scope k allow block = (true, e) ->
  fold_left (All.record_sitemap_url base allow block) l acc !! k = Some e.
Proof.
  revert acc. induction l as [|u l IH]; intros acc Hs Hin Hd Hk;
    [by apply elem_of_nil in Hin|].
  simpl. apply elem_of_cons in Hin as [<-|Hin].
  - unfold All.record_sitemap_url at 2. rewrite Hd.
    apply record_sitemap_fold_keeps; [by apply record_hit_sound|].
    by apply record_hit_new.
  - apply IH; try done. unfold All.record_sitemap_url.
    destruct (same_domain base u); [by apply record_hit_sound|done].
Qed.

Lemma sitemap_hits_complete (limit : nat) (k : string) (e : option string) :
  k ∈ All.sitemap_urls base limit -> same_domain base k = true ->
  in_scope k allow block = (true, e) ->
  All.sitemap_hits base allow block limit !! k = Some e.
Proof.
  unfold All.sitemap_hits, All.sitemap_urls. intros Hin Hd Hk.
  assert (G : forall sms acc,
    hits_sound_at allow block acc ->
    (acc !! k = Some e \/ k ∈ flat_map (All.parse_sitemap limit) sms) ->
    hits_sound_at allow block
      (fold_left (fun hits sm =>
                    fold_left (All.record_sitemap_url base allow block)
                              (All.parse_sitemap limit sm) hits) sms acc)
    /\ fold_left (fun hits sm =>
                    fold_left (All.record_sitemap_url base allow block)
                              (All.parse_sitemap limit sm) hits) sms acc !! k
       = Some e).
  { induction sms as [|sm sms IH]; intros acc Hs Hor.
    - split; [done|]. destruct Hor as [?|Hx]; [done|by apply elem_of_nil in Hx].
    - simpl. apply IH; [by apply record_sitemap_fold_sound|].
      destruct Hor as [Hacc|Hx].
      + left. by apply record_sitemap_fold_keeps.
      + simpl in Hx. apply elem_of_app in Hx as [Hx|Hx]; [left|by right].
        by apply record_sitemap_fold_adds. }
  apply G; [|by right]. intros k' e' Hk'. by rewrite lookup_empty in Hk'.
Qed.

Lemma sitemap_hits_sound (limit : nat) :
  hits_sound_at allow block (All.sitemap_hits base allow block limit).
Proof.
  intros k e Hk. by apply sitemap_hits_lookup in Hk as (_ & _ & ?).
Qed.

(** An iteration keeps the map a map of verdicts and keeps every entry. *)
Lemma hits_visit_keeps (url : string) (d : Z) (st : state) :
  hits_sound_at allow block (hits st) ->
  hits_sound_at allow block (hits (visit url d st))
  /\ forall k e, hits st !! k = Some e -> hits (visit url d st) !! k = Some e.
Proof.
  intros Hs. destruct (outcome url d st) as [| |r doc seen2]; cbn [hits]; [done..|].
  split; [by apply record_hit_sound|].
  intros k e Hk. apply record_hit_keeps; [done|by apply Hs].
Qed.

Lemma hits_bfs_keeps (fuel : nat) (st : state) :
  hits_sound_at allow block (hits st) ->
  hits_sound_at allow block (hits (bfs fuel st))
  /\ forall k e, hits st !! k = Some e -> hits (bfs fuel st) !! k = Some e.
Proof.
  revert st. induction fuel as [|fuel IH]; intros st Hs; [done|].
  simpl. destruct (q st) as [|[url d] rest]; [done|].
  destruct (hits_visit_keeps url d (mkState rest (seen st) (hits st) (trace st)) Hs)
    as [Hs' Hk'].
  destruct (IH _ Hs') as [Hs'' Hk'']. split; [done|].
  intros k e Hk. apply Hk'', Hk'. done.
Qed.

(** X9: nothing is ever removed from the hit map or changed in it, so every
    same-domain sitemap URL the classifier puts in scope is a key of the
    result of [discover_all], with the classifier's entity, whatever the
    crawl finds afterwards. *)
Theorem sitemap_hits_survive (limit : nat) (seeds : list string)
    (k : string) (e : option string) :
  k ∈ All.sitemap_urls base limit -> same_domain base k = true ->
  in_scope k allow block = (true, e) ->
  All.discover_all base allow block max_depth throttle limit seeds !! k = Some e.
Proof.
  intros Hin Hd Hk. unfold All.discover_all, All.run.
  apply hits_bfs_keeps; cbn [hits].
  - apply sitemap_hits_sound.
  - by apply sitemap_hits_complete.
Qed.


Lemma page_canonical_failed (url : string) :
  (cli_get url = None
   \/ (exists r, cli_get url = Some r
                 /\ (status_code r <> 200 \/ html_fromstring (text r) = None))) ->
  page_canonical url = None.
Proof.
  unfold page_canonical. intros [-> | (r & -> & [Hst|Hp])]; [done| |].
  - by destruct (Z.eqb_spec (status_code r) 200).
  - rewrite Hp. by destruct (negb _).
Qed.

Lemma page_canonical_page (url : string) (r : Response) (doc : HtmlDoc) :
  cli_get url = Some r -> status_code r = 200 ->
  html_fromstring (text r) = Some doc ->
  page_canonical url = Some (All.canonical_url doc url).
Proof. unfold page_canonical. by intros -> -> ->. Qed.

Lemma pages_recorded_visit (url : string) (d : Z) (st : state) :
  hits_sound_at allow block (hits st) -> pages_recorded allow block st ->
  pages_recorded allow block (visit url d st).
Proof.
  intros Hs Hrec.
  destruct (outcome url d st) as [| |r doc seen2 _ _ Hget Hst Hdoc _ _];
    [done| |]; intros u c e Hu Hc Hk; cbn [hits trace] in *.
  - rewrite fetched_app in Hu.
    apply elem_of_app in Hu as [Hu| ->%list_elem_of_singleton]; [by eapply Hrec|].
    rewrite page_canonical_failed in Hc by done. done.
  - rewrite !fetched_app, app_nil_r in Hu.
    apply elem_of_app in Hu as [Hu| ->%list_elem_of_singleton].
    + apply record_hit_keeps; [by eapply Hrec|done].
    + rewrite (page_canonical_page _ _ _ Hget Hst Hdoc) in Hc.
      injection Hc as <-. by apply record_hit_new.
Qed.

Lemma pages_recorded_bfs (fuel : nat) (st : state) :
  hits_sound_at allow block (hits st) -> pages_recorded allow block st ->
  pages_recorded allow block (bfs fuel st).
Proof.
  revert st. induction fuel as [|fuel IH]; intros st Hs Hrec; [done|].
  simpl. destruct (q st) as [|[url d] rest]; [done|].
  apply IH.
  - by apply (hits_visit_keeps url d (mkState rest (seen st) (hits st) (trace st))).
  - by apply pages_recorded_visit.
Qed.

(** X10: every page [discover_all] fetched with status 200 and could parse,
    and whose canonical URL the classifier puts in scope, is in the
    returned hit map under that canonical URL with the classifier's
    entity. *)
Theorem fetched_pages_recorded (limit : nat) (seeds : list string)
    (u c : string) (e : option string) :
  u ∈ fetched (trace (All.run base allow block max_depth throttle limit seeds)) ->
  page_canonical u = Some c ->
  in_scope c allow block = (true, e) ->
  All.discover_all base allow block max_depth throttle limit seeds !! c = Some e.
Proof.
  intros Hu Hc Hk. unfold All.discover_all, All.run in *.
  eapply pages_recorded_bfs; [apply sitemap_hits_sound| |done..].
  by intros u' c' e' ?%elem_of_nil.
Qed.


Lemma canonical_shortcut_visit (url : string) (d : Z) (st : state) :
  canonical_shortcut st -> canonical_shortcut (visit url d st).
Proof.
  intros Hinv.
  destruct (outcome url d st) as [| |r doc seen2 Hnew _ Hget Hst Hdoc _ ->];
    [done| |]; intros l1 u l2 c Hdec Hc; cbn [seen trace] in *.
  - rewrite fetched_app in Hdec. change (fetched [Fetch url]) with [url] in Hdec.
    symmetry in Hdec. apply app_eq_snoc in Hdec
      as [(-> & -> & ->)|(l2' & -> & Hdec)].
    + by rewrite page_canonical_failed in Hc.
    + destruct (Hinv _ _ _ _ Hdec Hc) as [Hin Hnot]. split; [set_solver|].
      intros [?| ->%list_elem_of_singleton]%elem_of_app; done.
  - rewrite !fetched_app, app_nil_r in Hdec.
    change (fetched [Fetch url]) with [url] in Hdec.
    symmetry in Hdec. apply app_eq_snoc in Hdec
      as [(-> & -> & ->)|(l2' & -> & Hdec)].
    + rewrite (page_canonical_page _ _ _ Hget Hst Hdoc) in Hc.
      injection Hc as <-. split; [set_solver|]. by intros ?%elem_of_nil.
    + destruct (Hinv _ _ _ _ Hdec Hc) as [Hin Hnot]. split; [set_solver|].
      intros [?| ->%list_elem_of_singleton]%elem_of_app; done.
Qed.

(** X11: once [discover_all] has fetched a page, the canonical URL it
    computed for that page is never fetched later in the run, even when
    other pages link to it. *)
Theorem canonical_not_refetched (limit : nat) (seeds : list string)
    (l1 l2 : list string) (u c : string) :
  fetched (trace (All.run base allow block max_depth throttle limit seeds))
  = l1 ++ u :: l2 ->
  page_canonical u = Some c ->
  c ∉ l2.
Proof.
  intros Hdec Hc.
  assert (Hinv : canonical_shortcut
                   (All.run base allow block max_depth throttle limit seeds)).
  { unfold All.run. apply (bfs_invariant base allow block max_depth throttle).
    - intros st url d rest _ Hst. by apply canonical_shortcut_visit.
    - intros l1' u' l2' c' Hnil. by destruct l1'. }
  by destruct (Hinv _ _ _ _ Hdec Hc).
Qed.

(** X12: the loop of [discover_all] ends on every site, cyclic link graphs
    included: once the fuel covers the budget of the seed queue, more fuel
    changes nothing and the queue is empty. *)
Theorem discover_all_terminates (limit fuel : nat) (seeds : list string) :
  (budget (All.page_links base) max_depth (All.seed_queue base seeds) <= fuel)%nat ->
  bfs fuel (All.start base allow block limit seeds)
  = All.run base allow block max_depth throttle limit seeds
  /\ q (bfs fuel (All.start base allow block limit seeds)) = [].
Proof.
  intros Hb. unfold All.run.
  set (st := All.start base allow block limit seeds).
  set (b := budget (All.page_links base) max_depth (q st)).
  assert (Hq : q (bfs b st) = []) by (by apply bfs_completes).
  replace fuel with (b + (fuel - b))%nat by (unfold b, st; cbn [q All.start]; lia).
  by rewrite (bfs_more base allow block max_depth throttle _ _ _ Hq).
Qed.

End all_hits_more.

(** ** More about the loop of [discover_over_cdp] *)

Section cdp_more.
Context `{RE : Regex} `{UJ : UrlJoin} `{BR : Browser}.
Variables (base : string) (allow : list (Pattern * string))
          (block : list Pattern) (depth : Z) (throttle : Q).

Local Abbreviation visit := (Cdp.visit base allow block depth throttle).
Local Abbreviation bfs := (Cdp.bfs base allow block depth throttle).

(** The three ways an iteration of the browser loop can end. *)
Lemma cdp_visit_cases (url : string) (d : Z) (st : state) :
  visit url d st = st
  \/ ((url ∉ seen st) /\ page_goto url = None
      /\ visit url d st
         = mkState (q st) ({[url]} ∪ seen st) (hits st) (trace st ++ [Fetch url]))
  \/ exists pg kids,
       (url ∉ seen st) /\ page_goto url = Some pg
       /\ (forall k, k ∈ kids -> k ∈ Cdp.next_links base pg)
       /\ visit url d st
          = mkState (q st ++ map (fun href => (href, d + 1)) kids)
              ({[url]} ∪ seen st)
              (record_hit allow block
                 (Cdp.canonical_url (page_url pg) (Cdp.can_href pg)) (hits st))
              ((trace st ++ [Fetch url]) ++ [Sleep throttle]).
Proof.
  unfold Cdp.visit.
  destruct (bool_decide (url ∈ seen st)) eqn:Hseen; cbn [orb]; [by left|].
  apply bool_decide_eq_false in Hseen.
  destruct (d >? depth); [by left|]. right.
  destruct (page_goto url) as [pg|] eqn:Hgo; [right|by left].
  eexists pg, _. repeat split; try done.
  intros k Hk%list_elem_of_In. apply filter_In in Hk as [Hk _].
  by apply list_elem_of_In.
Qed.

Lemma cdp_bfs_invariant (P : state -> Prop) :
  (forall st url d rest,
      q st = (url, d) :: rest -> P st ->
      P (visit url d (mkState rest (seen st) (hits st) (trace st)))) ->
  forall fuel st, P st -> P (bfs fuel st).
Proof.
  intros Hstep fuel. induction fuel as [|fuel IH]; intros st HP; [done|].
  simpl. destruct (q st) as [|[url d] rest] eqn:Hq; [done|].
  by apply IH, Hstep.
Qed.

Lemma cdp_next_links_spec (pg : Page) (href : string) :
  href ∈ Cdp.next_links base pg ->
  same_domain base href = true /\ Str.contains "#" href = false.
Proof.
  unfold Cdp.next_links. intros Hin%list_elem_of_In.
  apply filter_In in Hin as [Hin Hd]. split; [done|].
  apply in_map_iff in Hin as (h & <- & _). apply strip_fragment_no_hash.
Qed.

Lemma cdp_fetch_inv_visit (url : string) (d : Z) (st : state) :
  fetch_inv st -> fetch_inv (visit url d st).
Proof.
  intros Hinv.
  destruct (cdp_visit_cases url d st)
    as [->|[(Hnew & _ & ->)|(pg & kids & Hnew & _ & _ & ->)]]; [done| |].
  - by apply fetch_inv_fetch.
  - destruct (fetch_inv_fetch st url [] ∅ Hinv Hnew) as [Hnd Hin].
    cbn [trace seen] in Hnd, Hin.
    split; cbn [trace seen]; rewrite fetched_app, app_nil_r; done.
Qed.

(** X13: the browser loop, too, fetches no URL twice, fetches only URLs
    that pass [same_domain] and that are seeds or free of [#], and leaves
    its queue empty. *)
Theorem cdp_fetches (seeds : list string) (st : state) :
  Cdp.run base allow block depth throttle seeds = Some st ->
  NoDup (fetched (trace st))
  /\ (forall u, u ∈ fetched (trace st) ->
        same_domain base u = true
        /\ (u ∈ seeds \/ Str.contains "#" u = false))
  /\ q st = [].
Proof.
  unfold Cdp.run. destruct (page_goto base) as [pg0|]; [|done].
  intros [= <-].
  set (good u := same_domain base u = true
                 /\ (u ∈ seeds \/ Str.contains "#" u = false)).
  assert (Hstart : fetch_inv (Cdp.start base seeds)
                   /\ (forall u d, (u, d) ∈ q (Cdp.start base seeds) -> good u)
                   /\ (forall u, u ∈ fetched (trace (Cdp.start base seeds)) -> good u)).
  { split; [split; cbn; [apply NoDup_nil_2|by intros u ?%elem_of_nil]|].
    split; [|by intros u ?%elem_of_nil].
    unfold Cdp.start, Cdp.seed_queue. cbn [q].
    intros v d Hin%list_elem_of_In. apply in_map_iff in Hin as (s & [= <- <-] & Hin).
    apply filter_In in Hin as [Hin Hd]. split; [done|]. left.
    by apply list_elem_of_In. }
  set (I := fun st : state =>
              fetch_inv st
              /\ (forall u d, (u, d) ∈ q st -> good u)
              /\ (forall u, u ∈ fetched (trace st) -> good u)).
  assert (Hstep : forall st url d rest,
            q st = (url, d) :: rest -> I st ->
            I (visit url d (mkState rest (seen st) (hits st) (trace st)))).
  { clear Hstart. intros st url d rest Hq (Hf & Hqs & Hts).
    split; [by apply cdp_fetch_inv_visit|].
    assert (Hurl : good url) by (apply (Hqs url d); rewrite Hq; by left).
    assert (Hrest : forall u du, (u, du) ∈ rest -> good u).
    { intros u du Hin. apply (Hqs u du). rewrite Hq. by right. }
    destruct (cdp_visit_cases url d (mkState rest (seen st) (hits st) (trace st)))
      as [->|[(_ & _ & ->)|(pg & kids & _ & _ & Hkids & ->)]]; cbn [q trace] in *.
    - done.
    - split; [done|]. rewrite fetched_app.
      intros u [Hu| ->%list_elem_of_singleton]%elem_of_app; auto.
    - split.
      + intros u du [Hin|Hin]%elem_of_app; [by apply (Hrest u du)|].
        apply list_elem_of_In, in_map_iff in Hin as (h & [= <- <-] & Hin).
        apply list_elem_of_In, Hkids, cdp_next_links_spec in Hin as [? ?].
        split; auto.
      + rewrite !fetched_app, app_nil_r.
        intros u [Hu| ->%list_elem_of_singleton]%elem_of_app; auto. }
  destruct (cdp_bfs_invariant I Hstep
              (budget (Cdp.page_links base) depth (q (Cdp.start base seeds)))
              _ Hstart) as ([Hnd _] & _ & Hg).
  split; [done|]. split; [done|]. by apply cdp_bfs_completes.
Qed.

(** X14: the hit map of the browser variant holds exactly the in-scope
    canonical URLs of the pages it loaded: the [href] of the page's
    canonical link resolved against [page.url] when there is a non-empty
    one, else [page.url], each with the classifier's entity. *)
Theorem cdp_hit_map (seeds : list string) (st : state)
    (k : string) (e : option string) :
  Cdp.run base allow block depth throttle seeds = Some st ->
  (hits st !! k = Some e <->
   in_scope k allow block = (true, e)
   /\ exists u pg,
        u ∈ fetched (trace st) /\ page_goto u = Some pg
        /\ k = Cdp.canonical_url (page_url pg) (Cdp.can_href pg)).
Proof.
  unfold Cdp.run. destruct (page_goto base) as [pg0|]; [|done].
  intros [= <-].
  set (P := fun st : state =>
    hits_sound_at allow block (hits st)
    /\ (forall k e, hits st !! k = Some e ->
          exists u pg, u ∈ fetched (trace st) /\ page_goto u = Some pg
                       /\ k = Cdp.canonical_url (page_url pg) (Cdp.can_href pg))
    /\ (forall u pg e, u ∈ fetched (trace st) -> page_goto u = Some pg ->
          in_scope (Cdp.canonical_url (page_url pg) (Cdp.can_href pg))
                   allow block = (true, e) ->
          hits st !! Cdp.canonical_url (page_url pg) (Cdp.can_href pg) = Some e)).
  assert (HP : P (bfs (budget (Cdp.page_links base) depth
                         (q (Cdp.start base seeds))) (Cdp.start base seeds))).
  { apply cdp_bfs_invariant.
    - clear. intros st url d rest _ (Hs & Hfrom & Hto).
      destruct (cdp_visit_cases url d (mkState rest (seen st) (hits st) (trace st)))
        as [->|[(_ & Hgo & ->)|(pg & kids & _ & Hgo & _ & ->)]];
        [done| |]; unfold P; cbn [hits trace] in *.
      + split; [done|]. split.
        * intros k e Hk. destruct (Hfrom k e Hk) as (u & pg & Hu & Hrest).
          exists u, pg. split; [|done]. rewrite fetched_app. apply elem_of_app. by left.
        * intros u pg e. rewrite fetched_app.
          intros [Hu| ->%list_elem_of_singleton]%elem_of_app Hpg; [by eauto|].
          congruence.
      + split; [by apply record_hit_sound|]. split.
        * intros k e Hk. apply record_hit_lookup in Hk as [[-> _]|Hk].
          -- exists url, pg. split; [|done]. rewrite !fetched_app.
             apply elem_of_app. left. apply elem_of_app. right. by left.
          -- destruct (Hfrom k e Hk) as (u & pg' & Hu & Hrest).
             exists u, pg'. split; [|done]. rewrite !fetched_app.
             apply elem_of_app. left. apply elem_of_app. by left.
        * intros u pg' e. rewrite !fetched_app, app_nil_r.
          intros [Hu| ->%list_elem_of_singleton]%elem_of_app Hpg Hk.
          -- apply record_hit_keeps; [by eauto|done].
          -- assert (pg' = pg) as -> by congruence. by apply record_hit_new.
    - split; [by intros k' e' ?|]. split; [by intros k' e' ?|].
      by intros u pg e' ?%elem_of_nil. }
  destruct HP as (Hs & Hfrom & Hto). split.
  - intros Hk. split; [by apply Hs|by apply (Hfrom k e)].
  - intros (Hk & u & pg & Hu & Hpg & ->). by apply (Hto u pg e).
Qed.

End cdp_more.

(** ** More about [crawl] *)

Lemma pace_app (tr1 tr2 : list event) : pace (tr1 ++ tr2) = pace tr1 ++ pace tr2.
Proof. unfold pace. induction tr1 as [|e tr1 IH]; [done|]. simpl.
  destruct (is_fetch e || is_sleep e); simpl; by rewrite IH. Qed.

Lemma pace_downloads (l : list string) : pace (map Download l) = [].
Proof. induction l as [|u l IH]; [done|]. simpl. apply IH. Qed.

Lemma polite_cons_fetch (u : string) (rest : list event) :
  polite (Fetch u :: rest)
  = match pace rest with
    | Fetch _ :: _ => false
    | _ => polite rest
    end.
Proof. reflexivity. Qed.

Lemma settled_snoc_sleep (tr : list event) (t : Q) :
  settled (tr ++ [Sleep t]) = true.
Proof.
  unfold settled. rewrite pace_app.
  change (pace [Sleep t]) with [Sleep t]. by rewrite last_snoc.
Qed.

Lemma polite_quiet (mid : list event) (t : Q) :
  pace mid = [] -> polite (mid ++ [Sleep t]) = true.
Proof.
  induction mid as [|m mid IH]; [done|].
  destruct m; intros E; try discriminate E; cbn [app polite]; by apply IH.
Qed.

(** A polite trace that ends settled stays polite when a fetch, events that
    are neither fetch nor sleep, and a sleep are appended. *)
Lemma polite_round (tr : list event) (u : string) (mid : list event) (t : Q) :
  polite tr = true -> settled tr = true -> pace mid = [] ->
  polite ((tr ++ Fetch u :: mid) ++ [Sleep t]) = true.
Proof.
  intros Hp Hs Hmid. rewrite <- app_assoc. cbn [app].
  induction tr as [|e tr IH].
  - cbn [app]. rewrite polite_cons_fetch, pace_app, Hmid. cbn [app pace List.filter].
    change (is_fetch (Sleep t) || is_sleep (Sleep t)) with true. cbn iota.
    by apply polite_quiet.
  - assert (Hstep : polite tr = true -> settled tr = true ->
                    polite (tr ++ Fetch u :: mid ++ [Sleep t]) = true)
      by exact IH.
    destruct e as [v|v|v|t']; cbn [app].
    + rewrite polite_cons_fetch in Hp. rewrite polite_cons_fetch, pace_app.
      unfold settled in Hs. change (pace (Fetch v :: tr)) with (Fetch v :: pace tr) in Hs.
      destruct (pace tr) as [|e0 p0] eqn:Ep; [done|].
      cbn [app]. destruct e0; try done; apply Hstep; try done;
        unfold settled; rewrite Ep; by rewrite last_cons_cons in Hs.
    + apply Hstep; [done|]. exact Hs.
    + apply Hstep; [done|]. exact Hs.
    + apply Hstep; [done|]. unfold settled in *.
      change (pace (Sleep t' :: tr)) with (Sleep t' :: pace tr) in Hs.
      destruct (pace tr) as [|e0 p0]; [done|]. by rewrite last_cons_cons in Hs.
Qed.

Section crawler_more.
Context `{UJ : UrlJoin} `{RQ : Requests}.
Variables (max_pages max_depth : Z).

Local Abbreviation cvisit := (Crawler.visit max_depth).
Local Abbreviation loop := (Crawler.loop max_pages max_depth).

Lemma scrape_page_some (v : gset string) (url domain : string) (pd : page_data)
    (links : list string) (downloads : list event) :
  Crawler.scrape_page v url domain = (Some pd, links, downloads) ->
  pd_url pd = url
  /\ downloads = map Download (pd_images pd)
  /\ forall link, link ∈ links ->
       link ∈ pd_all_links pd /\ netloc (urlsplit link) = domain /\ link ∉ v.
Proof.
  unfold Crawler.scrape_page.
  destruct (requests_get url) as [r|]; [|done].
  destruct (negb _); [done|]. destruct (Crawler.title_of _); [|done].
  intros [= <- <- <-]. cbn [pd_url pd_images pd_all_links].
  split; [done|]. split; [done|].
  intros link Hin%list_elem_of_In. apply filter_In in Hin as [Hin Hc].
  apply andb_true_iff in Hc as [Hn Hv].
  apply String.eqb_eq in Hn. apply negb_true_iff, bool_decide_eq_false in Hv.
  split; [by apply list_elem_of_In|done].
Qed.

Lemma scrape_page_url (v : gset string) (url domain : string) (pd : page_data)
    (links : list string) (downloads : list event) :
  Crawler.scrape_page v url domain = (Some pd, links, downloads) ->
  pd_url pd = url
  /\ pace downloads = []
  /\ forall link, link ∈ links -> netloc (urlsplit link) = domain.
Proof.
  intros (Hu & -> & Hl)%scrape_page_some. split; [done|].
  split; [apply pace_downloads|]. intros link Hin. by apply Hl.
Qed.

Lemma scrape_page_none (v : gset string) (url domain : string)
    (links : list string) (downloads : list event) :
  Crawler.scrape_page v url domain = (None, links, downloads) ->
  links = [] /\ downloads = [].
Proof.
  unfold Crawler.scrape_page.
  destruct (requests_get url) as [r|]; [|by intros [= <- <-]].
  destruct (negb _); [by intros [= <- <-]|].
  destruct (Crawler.title_of _); [done|by intros [= <- <-]].
Qed.


(** The ways an iteration of [crawl] can end. *)
Lemma cvisit_cases (domain url : string) (depth : Z) (st : crawl_state) :
  cvisit domain url depth st = st
  \/ ((url ∉ visited st)
      /\ cvisit domain url depth st
         = mkCrawl (to_visit st) ({[url]} ∪ visited st) (results st)
                   ((log st ++ [Fetch url]) ++ [Sleep 1]))
  \/ exists pd kids downloads,
       (url ∉ visited st) /\ pd_url pd = url /\ pace downloads = []
       /\ (forall k, k ∈ kids -> netloc (urlsplit k) = domain)
       /\ cvisit domain url depth st
          = mkCrawl (to_visit st ++ map (fun link => (link, depth + 1)) kids)
                    ({[url]} ∪ visited st) (results st ++ [pd])
                    ((log st ++ Fetch url :: downloads) ++ [Sleep 1]).
Proof.
  unfold Crawler.visit.
  destruct (bool_decide (url ∈ visited st)) eqn:Hv; cbn [orb]; [by left|].
  apply bool_decide_eq_false in Hv.
  destruct (depth >? max_depth); [by left|]. right.
  destruct (Crawler.scrape_page _ url domain) as [[[pd|] links] downloads] eqn:Hs.
  - right. apply scrape_page_url in Hs as (Hu & Hd & Hl).
    eexists pd, _, downloads. repeat split; try done.
    intros k Hk%list_elem_of_In. apply filter_In in Hk as [Hk _].
    by apply Hl, list_elem_of_In.
  - left. apply scrape_page_none in Hs as [-> ->]. split; [done|].
    by rewrite app_nil_r.
Qed.

Lemma crawl_loop_invariant (domain : string) (P : crawl_state -> Prop) :
  (forall st url depth rest,
      to_visit st = (url, depth) :: rest ->
      Z.of_nat (length (results st)) < max_pages -> P st ->
      P (cvisit domain url depth
           (mkCrawl rest (visited st) (results st) (log st)))) ->
  forall fuel st, P st -> P (loop fuel domain st).
Proof.
  intros Hstep fuel. induction fuel as [|fuel IH]; intros st HP; [done|].
  simpl. destruct (to_visit st) as [|[url depth] rest] eqn:Hq; [done|].
  destruct (Z.ltb_spec (Z.of_nat (length (results st))) max_pages); [|done].
  by apply IH, Hstep.
Qed.

(** X16: [crawl] sleeps once after every fetch it attempts, whether the
    fetch gave a page or not: its log is polite, it ends with a sleep or is
    empty, and it holds as many sleeps as fetches. *)
Theorem crawl_is_polite (visited0 : gset string) (start_url : string) :
  polite (log (Crawler.run max_pages max_depth visited0 start_url)) = true
  /\ settled (log (Crawler.run max_pages max_depth visited0 start_url)) = true
  /\ length (List.filter is_sleep
               (log (Crawler.run max_pages max_depth visited0 start_url)))
     = length (fetched (log (Crawler.run max_pages max_depth visited0 start_url))).
Proof.
  unfold Crawler.run.
  apply (crawl_loop_invariant _ (fun st =>
           polite (log st) = true /\ settled (log st) = true
           /\ length (List.filter is_sleep (log st))
              = length (fetched (log st)))); [|done].
  intros st url depth rest _ _ (Hp & Hs & Hn).
  assert (Hcount : forall mid, pace mid = [] ->
            length (List.filter is_sleep ((log st ++ Fetch url :: mid) ++ [Sleep 1]))
            = length (fetched ((log st ++ Fetch url :: mid) ++ [Sleep 1]))).
  { intros mid Hmid.
    assert (List.filter is_sleep mid = [] /\ fetched mid = []) as [Hm1 Hm2].
    { clear -Hmid. induction mid as [|m mid IH]; [done|].
      destruct m; try discriminate Hmid; cbn; by apply IH. }
    rewrite !List.filter_app, !fetched_app, !length_app, Hn.
    change (List.filter is_sleep (Fetch url :: mid))
      with (List.filter is_sleep mid).
    change (fetched (Fetch url :: mid)) with (url :: fetched mid).
    rewrite Hm1, Hm2. cbn. lia. }
  destruct (cvisit_cases (netloc (urlsplit start_url)) url depth
              (mkCrawl rest (visited st) (results st) (log st)))
    as [->|[(_ & ->)|(pd & kids & dl & _ & _ & Hdl & _ & ->)]]; cbn [log].
  - done.
  - split; [by apply (polite_round _ _ [])|].
    split; [apply settled_snoc_sleep|]. by apply (Hcount []).
  - split; [by apply polite_round|].
    split; [apply settled_snoc_sleep|]. by apply Hcount.
Qed.

End crawler_more.

Section crawler_results.
Context `{UJ : UrlJoin} `{RQ : Requests}.
Variables (max_pages max_depth : Z).

Local Abbreviation cvisit := (Crawler.visit max_depth).
Local Abbreviation loop := (Crawler.loop max_pages max_depth).

(** X17: [crawl] returns at most [max_pages] pages (none when [max_pages]
    is zero or negative), and it stops only when its queue is empty or it
    holds exactly that many. *)
Theorem crawl_page_limit (visited0 : gset string) (start_url : string) :
  Z.of_nat (length (fst (Crawler.crawl max_pages max_depth visited0 start_url)))
  <= Z.max 0 max_pages
  /\ (to_visit (Crawler.run max_pages max_depth visited0 start_url) = []
      \/ Z.of_nat (length (fst (Crawler.crawl max_pages max_depth visited0 start_url)))
         = Z.max 0 max_pages).
Proof.
  unfold Crawler.crawl. cbn [fst].
  assert (Hle : Z.of_nat (length (results
                  (Crawler.run max_pages max_depth visited0 start_url)))
                <= Z.max 0 max_pages).
  { unfold Crawler.run.
    apply (crawl_loop_invariant max_pages max_depth _ (fun st =>
             Z.of_nat (length (results st)) <= Z.max 0 max_pages)); [|cbn; lia].
    intros st url depth rest _ Hlt Hle.
    destruct (cvisit_cases max_depth (netloc (urlsplit start_url)) url depth
                (mkCrawl rest (visited st) (results st) (log st)))
      as [->|[(_ & ->)|(pd & kids & dl & _ & _ & _ & _ & ->)]]; cbn [results];
      [done..|].
    rewrite length_app. cbn [length]. lia. }
  split; [done|].
  destruct (crawl_run_completes max_pages max_depth visited0 start_url)
    as [?|Hge]; [by left|right]. lia.
Qed.

(** X18: the pages [crawl] returns are in the order of their fetches, each
    under the URL it was fetched from, that URL is in the visited set, and
    no URL is returned twice. *)
Theorem crawl_results_are_fetches (visited0 : gset string) (start_url : string) :
  map pd_url (fst (Crawler.crawl max_pages max_depth visited0 start_url))
    `sublist_of` fetched (log (Crawler.run max_pages max_depth visited0 start_url))
  /\ NoDup (map pd_url (fst (Crawler.crawl max_pages max_depth visited0 start_url)))
  /\ forall pd, pd ∈ fst (Crawler.crawl max_pages max_depth visited0 start_url) ->
       pd_url pd ∈ snd (Crawler.crawl max_pages max_depth visited0 start_url).
Proof.
  unfold Crawler.crawl. cbn [fst snd].
  set (st := Crawler.run max_pages max_depth visited0 start_url).
  assert (Hsub : map pd_url (results st) `sublist_of` fetched (log st)).
  { unfold st, Crawler.run.
    apply (crawl_loop_invariant max_pages max_depth _ (fun st =>
             map pd_url (results st) `sublist_of` fetched (log st))); [|done].
    intros s url depth rest _ _ Hs.
    destruct (cvisit_cases max_depth (netloc (urlsplit start_url)) url depth
                (mkCrawl rest (visited s) (results s) (log s)))
      as [->|[(_ & ->)|(pd & kids & dl & _ & Hu & Hdl & _ & ->)]];
      cbn [results log]; [done| |].
    - rewrite !fetched_app, app_nil_r. by apply sublist_inserts_r.
    - rewrite map_app, !fetched_app, app_nil_r. apply sublist_app; [done|].
      change (fetched (Fetch url :: dl)) with (url :: fetched dl).
      cbn [map]. rewrite Hu. apply sublist_skip, sublist_nil_l. }
  assert (Hinv : crawl_inv st).
  { unfold st, Crawler.run. apply crawl_inv_loop.
    split; cbn; [apply NoDup_nil_2|by intros u ?%elem_of_nil]. }
  destruct Hinv as [Hnd Hvis].
  split; [done|]. split; [by apply (sublist_NoDup _ _ Hnd)|].
  intros pd Hpd. apply Hvis. apply (elem_of_sublist (map pd_url (results st))); [|done].
  apply list_elem_of_fmap. by exists pd.
Qed.

(** X19: [crawl] stays on the network location of its start URL: every URL
    it fetches has exactly that network location, so pages on subdomains
    are never followed. *)
Theorem crawl_stays_on_netloc (visited0 : gset string) (start_url u : string) :
  u ∈ fetched (log (Crawler.run max_pages max_depth visited0 start_url)) ->
  netloc (urlsplit u) = netloc (urlsplit start_url).
Proof.
  unfold Crawler.run. set (domain := netloc (urlsplit start_url)).
  revert u.
  apply (crawl_loop_invariant max_pages max_depth _ (fun st =>
           (forall v d, (v, d) ∈ to_visit st -> netloc (urlsplit v) = domain)
           /\ (forall v, v ∈ fetched (log st) -> netloc (urlsplit v) = domain))).
  - intros st url depth rest Hq _ [Hqs Hls].
    assert (Hurl : netloc (urlsplit url) = domain)
      by (apply (Hqs url depth); rewrite Hq; by left).
    assert (Hrest : forall v d, (v, d) ∈ rest -> netloc (urlsplit v) = domain).
    { intros v d Hin. apply (Hqs v d). rewrite Hq. by right. }
    destruct (cvisit_cases max_depth domain url depth
                (mkCrawl rest (visited st) (results st) (log st)))
      as [->|[(_ & ->)|(pd & kids & dl & _ & _ & Hdl & Hkids & ->)]];
      cbn [to_visit log].
    + done.
    + split; [done|]. rewrite !fetched_app, app_nil_r.
      intros v [Hv| ->%list_elem_of_singleton]%elem_of_app; auto.
    + assert (Hfd : fetched dl = []).
      { clear -Hdl. induction dl as [|m dl IH]; [done|].
        destruct m; try discriminate Hdl; cbn; by apply IH. }
      split.
      * intros v d [Hin|Hin]%elem_of_app; [by apply (Hrest v d)|].
        apply list_elem_of_In, in_map_iff in Hin as (k & [= <- <-] & Hin).
        by apply Hkids, list_elem_of_In.
      * rewrite !fetched_app, app_nil_r.
        change (fetched (Fetch url :: dl)) with (url :: fetched dl).
        rewrite Hfd.
        intros v [Hv| ->%list_elem_of_singleton]%elem_of_app; auto.
  - split; [|by intros v ?%elem_of_nil]. cbn [to_visit].
    by intros v d [= -> ->]%list_elem_of_singleton.
Qed.

End crawler_results.

(** ** Reading [robots.txt] *)

Lemma colon_lower (c : ascii) :
  Ascii.eqb ":" c = Ascii.eqb ":" (Str.lower_char c).
Proof. by destruct c as [[] [] [] [] [] [] [] []]. Qed.

Lemma break_colon_skip (c x : ascii) (s : string) :
  Ascii.eqb x (Str.lower_char c) = true -> Ascii.eqb ":" x = false ->
  Str.break_at (Ascii.eqb ":") (String c s)
  = (String c (fst (Str.break_at (Ascii.eqb ":") s)),
     snd (Str.break_at (Ascii.eqb ":") s)).
Proof.
  intros Hx Hc. rewrite break_at_cons, colon_lower.
  apply Ascii.eqb_eq in Hx as <-. by rewrite Hc.
Qed.

Lemma sitemap_key_split (line : string) :
  Str.startswith (Str.lower line) "sitemap:" = true ->
  snd (Str.split1 ":" line) = Some (string_drop 8 line).
Proof.
  destruct line as [|c1 [|c2 [|c3 [|c4 [|c5 [|c6 [|c7 [|c8 rest]]]]]]]];
    cbn [Str.lower Str.startswith]; rewrite ?andb_false_r; try done.
  intros H.
  apply andb_true_iff in H as [E1 H]. apply andb_true_iff in H as [E2 H].
  apply andb_true_iff in H as [E3 H]. apply andb_true_iff in H as [E4 H].
  apply andb_true_iff in H as [E5 H]. apply andb_true_iff in H as [E6 H].
  apply andb_true_iff in H as [E7 H]. apply andb_true_iff in H as [E8 _].
  unfold Str.split1.
  rewrite (break_colon_skip c1 _ _ E1 eq_refl), (break_colon_skip c2 _ _ E2 eq_refl),
    (break_colon_skip c3 _ _ E3 eq_refl), (break_colon_skip c4 _ _ E4 eq_refl),
    (break_colon_skip c5 _ _ E5 eq_refl), (break_colon_skip c6 _ _ E6 eq_refl),
    (break_colon_skip c7 _ _ E7 eq_refl).
  rewrite break_at_cons, colon_lower, E8. reflexivity.
Qed.

Lemma robots_lines_values (lines acc : list string) :
  All.robots_lines lines acc = acc ++ omap directive_value lines.
Proof.
  revert acc. induction lines as [|line lines IH]; intros acc; simpl.
  - by rewrite app_nil_r.
  - unfold directive_value.
    destruct (Str.startswith (Str.lower (Str.strip line)) "sitemap:") eqn:Hk.
    + pose proof (sitemap_key_split _ Hk) as Hv.
      destruct (Str.split1 ":" (Str.strip line)) as [l [v|]]; [|done].
      injection Hv as ->. by rewrite IH, <- app_assoc.
    + apply IH.
Qed.

Section robots_and_sitemaps.
Context `{UJ : UrlJoin} `{ST : Site}.

(** X20: from a [robots.txt] served with status 200, [robots_sitemaps]
    returns, in order, the value of every line whose key is [sitemap:] in
    any letter case, that is the rest of the line after its first colon,
    stripped (so a URL keeps its own colons); all other lines are ignored
    and no line ends the scan early. *)
Theorem robots_sitemaps_values (base : string) (r : Response)
    (lines acc : list string) :
  All.robots_lines lines acc = acc ++ omap directive_value lines
  /\ (cli_get (urljoin base "/robots.txt") = Some r -> status_code r = 200 ->
      All.robots_sitemaps base = omap directive_value (Str.splitlines (text r))).
Proof.
  split; [apply robots_lines_values|].
  intros Hget Hst. unfold All.robots_sitemaps.
  rewrite Hget, Hst. change (200 =? 200) with true. cbn iota.
  by rewrite robots_lines_values.
Qed.

Lemma extend_children_textless (rec : string -> list string)
    (pre : list string) (post : list (option string)) (urls : list string) :
  All.extend_children rec (map Some pre ++ None :: post) urls
  = urls ++ flat_map (fun c => rec (Str.strip c)) pre.
Proof.
  revert urls. induction pre as [|c pre IH]; intros urls; simpl.
  - by rewrite app_nil_r.
  - by rewrite IH, app_assoc.
Qed.

Lemma append_locs_textless (pre : list string) (post : list (option string))
    (urls : list string) :
  All.append_locs (map Some pre ++ None :: post) urls
  = urls ++ map Str.strip pre.
Proof.
  revert urls. induction pre as [|c pre IH]; intros urls; simpl.
  - by rewrite app_nil_r.
  - by rewrite IH, <- app_assoc.
Qed.

(** X21: a [loc] element without text ends the scan of its sitemap: what
    the entries before it contribute is kept, the entries after it are
    never looked at, in an index as in a URL set. *)
Theorem sitemap_textless_entry (limit : nat) (url : string) (r : Response)
    (xml : XmlDoc) (pre : list string) (post : list (option string)) :
  cli_get url = Some r -> status_code r = 200 ->
  safe_fromstring (content r) = Some xml ->
  (Str.lower (localname xml) = "sitemapindex" ->
   sitemap_loc xml = map Some pre ++ None :: post ->
   All.parse_sitemap (S limit) url
   = flat_map (fun c => All.parse_sitemap limit (Str.strip c)) pre)
  /\ (Str.lower (localname xml) = "urlset" ->
      url_loc xml = map Some pre ++ None :: post ->
      All.parse_sitemap (S limit) url = map Str.strip pre).
Proof.
  intros Hget Hst Hp. split; intros Htag Hloc; simpl;
    rewrite Hget, Hst, Hp, Htag, Hloc; change (negb (200 =? 200)) with false.
  - change ("sitemapindex" =? "sitemapindex")%string with true. cbn iota.
    by rewrite extend_children_textless.
  - change ("urlset" =? "sitemapindex")%string with false.
    change ("urlset" =? "urlset")%string with true. cbn iota.
    by rewrite append_locs_textless.
Qed.

End robots_and_sitemaps.

(** ** The inventory rows *)

Lemma item_le_trans : Transitive item_le.
Proof. intros x y z. unfold item_le. apply transitivity. Qed.

Lemma item_le_total : Total item_le.
Proof. intros x y. unfold item_le. apply total, _. Qed.

Lemma sorted_items_perm (hits : gmap string (option string)) :
  sorted_items hits ≡ₚ map_to_list hits.
Proof. apply merge_sort_Permutation. Qed.

Lemma sorted_items_sorted (hits : gmap string (option string)) :
  StronglySorted String.le (map fst (sorted_items hits)).
Proof.
  pose proof (@StronglySorted_merge_sort _ item_le _ item_le_trans item_le_total
                (map_to_list hits)) as Hs.
  fold (sorted_items hits) in Hs.
  induction Hs as [|x l _ IH Hall]; simpl; constructor; [done|].
  apply Forall_forall. intros u (y & -> & Hy)%list_elem_of_fmap.
  by apply (proj1 (Forall_forall _ _) Hall).
Qed.

Lemma row_urls (discovery now : string) (hits : gmap string (option string)) :
  map row_url (write_results discovery now hits) = map fst (sorted_items hits).
Proof. unfold write_results. rewrite map_map. done. Qed.

(** X22: [write_results] emits exactly one row per hit, in ascending order
    of URL without repetition; the row carries the hit's URL and entity,
    priority [P1] for the entities plan, device and promo and [P2] for any
    other, the script's discovery label, status [todo] and the time
    stamp. *)
Theorem write_results_rows (discovery now : string)
    (hits : gmap string (option string)) :
  StronglySorted String.le (map row_url (write_results discovery now hits))
  /\ NoDup (map row_url (write_results discovery now hits))
  /\ length (write_results discovery now hits) = size hits
  /\ (forall u e, hits !! u = Some e <->
        exists row, row ∈ write_results discovery now hits
                    /\ row_url row = u /\ row_entity row = e)
  /\ (forall row, row ∈ write_results discovery now hits ->
        row_priority row
        = (if bool_decide (row_entity row ∈ [Some "plan"; Some "device"; Some "promo"])
           then "P1" else "P2")
        /\ row_discovery row = discovery /\ row_status row = "todo"
        /\ row_last_seen row = now).
Proof.
  split; [rewrite row_urls; apply sorted_items_sorted|].
  split; [|split; [|split]].
  - rewrite row_urls, (sorted_items_perm hits). apply NoDup_fst_map_to_list.
  - unfold write_results. rewrite length_map, (sorted_items_perm hits).
    apply length_map_to_list.
  - intros u e. rewrite <- elem_of_map_to_list, <- (sorted_items_perm hits).
    unfold write_results. split.
    + intros Hin. exists (row_of discovery now (u, e)). split; [|done].
      apply list_elem_of_fmap. by exists (u, e).
    + intros (row & (item & -> & Hin)%list_elem_of_fmap & <- & <-).
      by destruct item.
  - unfold write_results.
    intros row ([u e] & -> & _)%list_elem_of_fmap. cbn. split; [|done].
    destruct e as [h|]; cbn; [|by rewrite bool_decide_eq_false_2 by set_solver].
    destruct (String.eqb_spec h "plan") as [->|H1]; [done|].
    destruct (String.eqb_spec h "device") as [->|H2]; [done|].
    destruct (String.eqb_spec h "promo") as [->|H3]; [done|].
    cbn. rewrite bool_decide_eq_false_2; [done|].
    intros Hin. repeat (apply elem_of_cons in Hin as [[= ?]|Hin]; [done|]).
    by apply elem_of_nil in Hin.
Qed.

(** ** The PDF report *)

Lemma substring_length_le (n : nat) (s : string) :
  (String.length (String.substring 0 n s) <= n)%nat.
Proof.
  revert s. induction n as [|n IH]; intros [|c s]; simpl; try lia.
  specialize (IH s). lia.
Qed.

Lemma substring_short (n : nat) (s : string) :
  (String.length s <= n)%nat -> String.substring 0 n s = s.
Proof.
  revert s. induction n as [|n IH]; intros [|c s]; simpl; try done; try lia.
  intros Hl. rewrite IH; [done|lia].
Qed.

Lemma string_length_app (s t : string) :
  String.length (s +:+ t) = (String.length s + String.length t)%nat.
Proof.
  induction s as [|c s IH]; [done|]. rewrite app_cons_s. simpl. by rewrite IH.
Qed.


(** ** The further properties on the example sites *)

Section more_examples.
Import Example.
#[local] Existing Instance literal_re.
#[local] Existing Instance simple_join.


Lemma in_scope_sound_witness :
  exists pat hint,
    Some "device" = Some hint /\ (pat, hint) ∈ allow
    /\ re_search pat (path (urlsplit "https://example.com/devices/phone")) = true
    /\ forall b, b ∈ block ->
         re_search b (path (urlsplit "https://example.com/devices/phone")) = false.
Proof.
  apply (in_scope_sound (RE := literal_re) "https://example.com/devices/phone"
           allow block true (Some "device")).
  reflexivity.
Defined.

Lemma same_domain_preorder_witness :
  same_domain "https://example.com" "https://a.shop.example.com/x" = true.
Proof.
  apply (proj2 (same_domain_preorder "https://example.com"
                  "https://shop.example.com" "https://a.shop.example.com/x"));
    reflexivity.
Defined.

Lemma same_domain_without_netloc_witness :
  same_domain "https://example.com" "mailto:sales@example.com" = true
  <-> netloc (urlsplit "https://example.com") = "".
Proof.
  apply (same_domain_without_netloc "https://example.com"
           "mailto:sales@example.com").
  reflexivity.
Defined.

Lemma fetches_in_domain_witness :
  same_domain base "https://example.com/plans/unlimited" = true
  /\ ("https://example.com/plans/unlimited" ∈ ["https://example.com/"]
      \/ Str.contains "#" "https://example.com/plans/unlimited" = false).
Proof.
  apply (fetches_in_domain (ST := shop) base allow block 2 0.75 1000
           ["https://example.com/"]).
  vm_compute. right. left.
Defined.

Lemma depth_zero_fetches_seeds_only_witness :
  "https://example.com/" ∈ ["https://example.com/"]
  /\ trace (All.run (ST := shop) base allow block (-1) 0.75 1000
              ["https://example.com/"]) = [].
Proof.
  split.
  - apply (proj1 (depth_zero_fetches_seeds_only (ST := shop) base allow block
                    0 0.75 1000 ["https://example.com/"])); [lia|].
    vm_compute. left.
  - apply (proj2 (depth_zero_fetches_seeds_only (ST := shop) base allow block
                    (-1) 0.75 1000 ["https://example.com/"])). lia.
Defined.

Lemma sitemap_hits_survive_witness :
  All.discover_all (ST := aliased) base allow block 2 0.75 1000
    ["https://example.com/plans/a?ref=nav"]
  !! "https://example.com/plans/a?ref=nav" = Some (Some "plan").
Proof.
  apply (sitemap_hits_survive (ST := aliased)).
  - vm_compute. left.
  - reflexivity.
  - reflexivity.
Defined.

Lemma fetched_pages_recorded_witness :
  All.discover_all (ST := canon_site) base allow block 2 0.75 1000
    ["https://example.com/"]
  !! "https://example.com/plans/a" = Some (Some "plan").
Proof.
  apply (fetched_pages_recorded (ST := canon_site) base allow block 2 0.75 1000
           ["https://example.com/"] "https://example.com/plans/a?ref=nav").
  - vm_compute. right. left.
  - reflexivity.
  - reflexivity.
Defined.

Lemma canonical_not_refetched_witness :
  "https://example.com/plans/a" ∉ ["https://example.com/about"].
Proof.
  apply (canonical_not_refetched (ST := canon_site) base allow block 2 0.75 1000
           ["https://example.com/"] ["https://example.com/"]
           ["https://example.com/about"] "https://example.com/plans/a?ref=nav").
  - vm_compute. reflexivity.
  - reflexivity.
Defined.

Lemma discover_all_terminates_witness :
  All.bfs (ST := shop) base allow block 2 0.75 50
    (All.start (ST := shop) base allow block 1000 ["https://example.com/"])
  = All.run (ST := shop) base allow block 2 0.75 1000 ["https://example.com/"]
  /\ q (All.bfs (ST := shop) base allow block 2 0.75 50
          (All.start (ST := shop) base allow block 1000 ["https://example.com/"]))
     = [].
Proof.
  apply (discover_all_terminates (ST := shop)).
  apply Nat.leb_le. vm_compute. reflexivity.
Defined.

Lemma cdp_fetches_witness :
  exists st,
    Cdp.run (BR := shop_browser) base allow block 3 0.7 ["https://example.com/"]
    = Some st
    /\ NoDup (fetched (trace st)) /\ q st = [].
Proof.
  eexists. split; [vm_compute; reflexivity|].
  match goal with
  | |- NoDup (fetched (trace ?s)) /\ _ =>
      destruct (cdp_fetches (BR := shop_browser) base allow block 3 0.7
                  ["https://example.com/"] s) as (H1 & _ & H3)
  end; [vm_compute; reflexivity|].
  split; [exact H1|exact H3].
Defined.

Lemma cdp_hit_map_witness :
  exists st,
    Cdp.run (BR := shop_browser) base allow block 3 0.7 ["https://example.com/"]
    = Some st
    /\ hits st !! "https://example.com/plans/unlimited" = Some (Some "plan").
Proof.
  eexists. split; [vm_compute; reflexivity|].
  match goal with
  | |- hits ?s !! _ = _ =>
      apply (cdp_hit_map (BR := shop_browser) base allow block 3 0.7
               ["https://example.com/"] s)
  end; [vm_compute; reflexivity|].
  split; [reflexivity|].
  exists "https://example.com/plans/unlimited",
         (mkPage "https://example.com/plans/unlimited?session=1"
                 (Some (Some "/plans/unlimited")) []).
  split; [|split; reflexivity].
  vm_compute. right. left.
Defined.


Lemma crawl_results_are_fetches_witness :
  "https://example.com/about"
  ∈ snd (Crawler.crawl (RQ := blog) 20 2 ∅ "https://example.com/").
Proof.
  apply (proj2 (proj2 (crawl_results_are_fetches (RQ := blog) 20 2 ∅
                         "https://example.com/"))
           (mkPageData "https://example.com/about" "No Title" "" []
                       ["https://example.com/"])).
  vm_compute. right. left.
Defined.

Lemma crawl_stays_on_netloc_witness :
  netloc (urlsplit "https://example.com/about")
  = netloc (urlsplit "https://example.com/").
Proof.
  apply (crawl_stays_on_netloc (RQ := blog) 20 2 ∅ "https://example.com/").
  vm_compute. right. left.
Defined.

Lemma robots_sitemaps_values_witness :
  All.robots_sitemaps (ST := mapped) base
  = ["https://example.com/sitemap_index.xml"; "https://example.com/missing.xml";
     "https://example.com/sitemap_mixed.xml"].
Proof.
  rewrite (proj2 (robots_sitemaps_values (ST := mapped) base
             (ok "https://example.com/robots.txt"
                ("SITEMAP: https://example.com/sitemap_index.xml" +:+ LF +:+
                 "Sitemap:https://example.com/missing.xml" +:+ LF +:+
                 "Disallow: /admin" +:+ LF +:+
                 "sitemap: https://example.com/sitemap_mixed.xml"))
             [] [])).
  - vm_compute. reflexivity.
  - vm_compute. reflexivity.
  - reflexivity.
Defined.

Lemma sitemap_textless_entry_witness :
  All.parse_sitemap (ST := gappy_site) 2 "https://example.com/gappy_index.xml"
  = ["https://example.com/plans/unlimited"]
  /\ All.parse_sitemap (ST := gappy_site) 1 "https://example.com/gappy.xml"
     = ["https://example.com/plans/a"].
Proof.
  split.
  - apply (proj1 (sitemap_textless_entry (ST := gappy_site) 1
             "https://example.com/gappy_index.xml"
             (ok "https://example.com/gappy_index.xml" "gappy-index")
             (mkXmlDoc "sitemapindex"
                [Some "https://example.com/urls.xml"; None;
                 Some "https://example.com/more.xml"] [])
             ["https://example.com/urls.xml"]
             [Some "https://example.com/more.xml"]
             eq_refl eq_refl eq_refl)); reflexivity.
  - apply (proj2 (sitemap_textless_entry (ST := gappy_site) 0
             "https://example.com/gappy.xml"
             (ok "https://example.com/gappy.xml" "gappy")
             (mkXmlDoc "urlset" []
                [Some "https://example.com/plans/a"; None;
                 Some "https://example.com/plans/b"])
             ["https://example.com/plans/a"]
             [Some "https://example.com/plans/b"]
             eq_refl eq_refl eq_refl)); reflexivity.
Defined.

Lemma write_results_rows_witness :
  exists row,
    row ∈ write_results "sitemap+crawl" "2025-01-01 00:00:00Z"
            (All.discover_all (ST := aliased) base allow block 2 0.75 1000
               ["https://example.com/plans/a?ref=nav"])
    /\ row_url row = "https://example.com/plans/a"
    /\ row_entity row = Some "plan".
Proof.
  destruct (write_results_rows "sitemap+crawl" "2025-01-01 00:00:00Z"
              (All.discover_all (ST := aliased) base allow block 2 0.75 1000
                 ["https://example.com/plans/a?ref=nav"]))
    as (_ & _ & _ & Hrows & _).
  apply (Hrows "https://example.com/plans/a" (Some "plan")).
  vm_compute. reflexivity.
Defined.

Example write_results_aliased :
  map row_url
    (write_results "sitemap+crawl" "2025-01-01 00:00:00Z"
       (All.discover_all (ST := aliased) base allow block 2 0.75 1000
          ["https://example.com/plans/a?ref=nav"]))
  = ["https://example.com/plans/a"; "https://example.com/plans/a?ref=nav"].
Proof. vm_compute. reflexivity. Qed.


End more_examples.
